(** * Conservation analysis of multiple sequence alignments

    A shallow embedding of [preliminary_analysis.py]: the conservation
    scorer, the key-residue and highly-conserved views, and the folder and
    run drivers, together with the properties the specification states
    about them.

    Modelling decisions, all taken from the source:

    - An alignment is the list of its records' sequences (strings); only
      [record.seq] is read by the program.  A record holds the bytes of
      its sequence, and [str(record.seq)] on line 19 decodes them as
      ASCII: the drivers decode what they have read before scoring it,
      and a byte of 128 or more raises there.
    - A pandas [DataFrame] built from a list of rows is a list of rows of
      cells; rows shorter than the longest one are filled with missing
      values, so a cell is an [option ascii].
    - A score is the float [count / total].  It is embedded as the exact
      rational, kept in lowest terms ([Qred]) so that one number has one
      representation; the threshold literal [0.95] is [95/100].  Rounding
      to binary64 is monotone, so maxima agree, and the comparison with
      [0.95] agrees as long as the number of sequences is far below 2^49.
    - A pandas [Series] over the columns [0 .. w-1] is the list of its
      values; [s[k]] is a lookup by label and raises [KeyError] outside
      [0 .. w-1].
    - Console output and file writes are recorded in a trace of events.
      Exceptions are first-order values; effects that happened before an
      exception stay in the trace. *)

From Stdlib Require Import Ascii String DecimalString.
From Stdlib Require Import List Sorted Permutation Arith ZArith QArith Qreduction Lia Bool.
Import ListNotations.

Local Open Scope nat_scope.

(** ** Generic list helpers *)

Definition sum_nat (l : list nat) : nat := fold_right Nat.add 0 l.

(** Python's [enumerate]: each element paired with its 0-based index. *)
Definition enumerate {A : Type} (l : list A) : list (nat * A) :=
  combine (seq 0 (length l)) l.

(** ** Data frames *)

Module Frame.

(** A cell of a frame built from ragged rows: a value or a missing one. *)
Definition cell : Type := option ascii.

Definition t (A : Type) : Type := list (list A).

(** Number of columns of [pd.DataFrame(rows)]: the longest row. *)
Definition width {A : Type} (rows : list (list A)) : nat :=
  list_max (map (@length A) rows).

(** [pd.DataFrame(rows)]: every row is filled up to the common width. *)
Definition DataFrame (rows : list (list ascii)) : t cell :=
  let w := width rows in
  map (fun row => map Some row ++ repeat None (w - length row)) rows.

(** [df.applymap(f)]: [f] on every cell, missing ones included. *)
Definition applymap {A B : Type} (f : A -> B) (df : t A) : t B :=
  map (map f) df.

Definition ncols {A : Type} (df : t A) : nat :=
  match df with
  | [] => 0
  | row :: _ => length row
  end.

Definition column {A : Type} (d : A) (j : nat) (df : t A) : list A :=
  map (fun row => nth j row d) df.

(** [df.apply(f, axis=0)]: [f] on every column, left to right. *)
Definition apply_columns {A B : Type} (d : A) (f : list A -> B)
    (df : t A) : list B :=
  map (fun j => f (column d j df)) (seq 0 (ncols df)).

End Frame.

(** ** Series operations used by the scorer *)

(** [col.value_counts()]: every distinct value with its number of
    occurrences.  pandas orders the result by decreasing count; only the
    maximum is read afterwards, so first-occurrence order is kept here. *)
Definition value_counts (col : list ascii) : list (ascii * nat) :=
  map (fun s => (s, count_occ ascii_dec col s)) (nodup ascii_dec col).

(** The float [c / total], as a rational in lowest terms. *)
Definition frequency (total c : nat) : Q :=
  Qred (Z.of_nat c # Pos.of_nat total).

(** [col.value_counts(normalize=True)]: counts divided by their sum. *)
Definition value_counts_normalized (col : list ascii) : list (ascii * Q) :=
  let counts := value_counts col in
  let total := sum_nat (map snd counts) in
  map (fun sc => (fst sc, frequency total (snd sc))) counts.

Definition Qmax2 (a b : Q) : Q := if Qle_bool a b then b else a.

(** [Series.max()].  The program only calls it on the counts of a column
    that has at least one row; the value for the empty series (NaN in
    pandas) is never read, and is 0 here. *)
Definition series_max (l : list Q) : Q :=
  match l with
  | [] => 0%Q
  | x :: rest => fold_left Qmax2 rest x
  end.

(** ** The scorer *)

Definition gap : ascii := "-"%char.

Definition valid_amino_acids : list ascii :=
  list_ascii_of_string "ACDEFGHIKLMNPQRSTVWY".

Definition is_valid (x : ascii) : bool :=
  existsb (Ascii.eqb x) valid_amino_acids.

(** The lambda of [applymap]: [x if x in valid_amino_acids else "-"]. *)
Definition normalize (x : Frame.cell) : ascii :=
  match x with
  | Some c => if is_valid c then c else gap
  | None => gap
  end.

Definition Alignment : Type := list string.

Definition normalized_frame (alignment : Alignment) : Frame.t ascii :=
  let sequences := map list_ascii_of_string alignment in
  Frame.applymap normalize (Frame.DataFrame sequences).

Definition column_score (col : list ascii) : Q :=
  series_max (map snd (value_counts_normalized col)).

Definition calculate_conservation_scores (alignment : Alignment) : list Q :=
  Frame.apply_columns gap column_score (normalized_frame alignment).

(** ** The analyzer *)

Definition threshold : Q := 95 # 100.

(** [score > 0.95] *)
Definition above_threshold (score : Q) : bool :=
  negb (Qle_bool score threshold).

(** Line 52 of the source:
    [[(i+1, score) for i, score in enumerate(scores) if score > 0.95]]. *)
Definition highly_conserved (scores : list Q) : list (Z * Q) :=
  map (fun p => (Z.of_nat (fst p) + 1, snd p)%Z)
      (filter (fun p => above_threshold (snd p)) (enumerate scores)).

Inductive Exception : Type :=
| KeyError (label : Z)
| OtherError (message : string).

(** [scores[k]] on a series labelled [0 .. len-1]. *)
Definition series_getitem (scores : list Q) (k : Z) : Exception + Q :=
  if ((0 <=? k) && (k <? Z.of_nat (length scores)))%Z
  then inr (nth (Z.to_nat k) scores 0%Q)
  else inl (KeyError k).

(** The loop of [analyze_key_residues] over an already computed profile;
    [results] is the list being appended to. *)
Fixpoint key_residue_rows (scores : list Q) (positions : list Z)
    (results : list (Z * Q)) : Exception + list (Z * Q) :=
  match positions with
  | [] => inr results
  | pos :: rest =>
      if (pos <=? Z.of_nat (length scores))%Z then
        match series_getitem scores (pos - 1) with
        | inl e => inl e
        | inr score => key_residue_rows scores rest (results ++ [(pos, score)])
        end
      else key_residue_rows scores rest results
  end.

Definition residues_to_highlight : list Z := [285; 417; 447]%Z.

Definition analyze_key_residues (alignment : Alignment)
    (positions : list Z) : Exception + list (Z * Q) :=
  let conservation_scores := calculate_conservation_scores alignment in
  key_residue_rows conservation_scores positions [].

(** ** Vocabulary for the scorer's and the analyzer's properties *)

(** The column as the scorer sees it: the symbol of every sequence at
    0-based column [j], normalized; a sequence too short for [j] has a
    missing value there. *)
Definition normalized_column (alignment : Alignment) (j : nat) : list ascii :=
  map (fun s => normalize (nth_error (list_ascii_of_string s) j)) alignment.

(** The symbols as they stand in the input, before normalization. *)
Definition raw_column (alignment : Alignment) (j : nat) : list Frame.cell :=
  map (fun s => nth_error (list_ascii_of_string s) j) alignment.

Definition alignment_width (alignment : Alignment) : nat :=
  Frame.width (map list_ascii_of_string alignment).

Definition count (col : list ascii) (s : ascii) : nat :=
  count_occ ascii_dec col s.

Definition max_count (col : list ascii) : nat :=
  list_max (map (count col) col).

(** A cell that holds the symbol [c]. *)
Definition carries (c : ascii) (x : Frame.cell) : bool :=
  match x with
  | Some a => Ascii.eqb a c
  | None => false
  end.

(** A cell that is missing or holds a symbol outside the alphabet. *)
Definition counts_as_gap (x : Frame.cell) : bool :=
  match x with
  | Some a => negb (is_valid a)
  | None => true
  end.

(** The row the loop appends for an in-bounds position. *)
Definition row_at (scores : list Q) (pos : Z) : Z * Q :=
  (pos, nth (Z.to_nat (pos - 1)) scores 0%Q).

Definition in_bounds (scores : list Q) (pos : Z) : bool :=
  (pos <=? Z.of_nat (length scores))%Z.

(** ** Paths ([os.path] on a POSIX system) *)

Module Path.

Definition sep : ascii := "/"%char.
Definition extsep : ascii := "."%char.

(** [os.path.basename]: what follows the last separator. *)
Definition basename (p : string) : string :=
  string_of_list_ascii
    (fold_left (fun acc c => if Ascii.eqb c sep then [] else acc ++ [c])
               (list_ascii_of_string p) []).

(** [str.rfind] of one character: the last index where it occurs. *)
Fixpoint rfind_from (c : ascii) (l : list ascii) (i : nat)
    (last : option nat) : option nat :=
  match l with
  | [] => last
  | x :: rest =>
      rfind_from c rest (S i) (if Ascii.eqb x c then Some i else last)
  end.

Definition rfind (c : ascii) (l : list ascii) : option nat :=
  rfind_from c l 0 None.

(** First component of [os.path.splitext]: the path without its
    extension.  The last dot starts an extension when it comes after the
    last separator and some character between them is not a dot. *)
Definition splitext_root (p : string) : string :=
  let l := list_ascii_of_string p in
  match rfind extsep l with
  | None => p
  | Some dot =>
      let start := match rfind sep l with None => 0 | Some s => S s end in
      if (start <=? dot)
         && existsb (fun c => negb (Ascii.eqb c extsep))
                    (firstn (dot - start) (skipn start l))
      then string_of_list_ascii (firstn dot l)
      else p
  end.

Definition endswith_sep (p : string) : bool :=
  match rev (list_ascii_of_string p) with
  | c :: _ => Ascii.eqb c sep
  | [] => false
  end.

(** [os.path.join(a, b)] *)
Definition join (a b : string) : string :=
  if String.prefix "/" b then b
  else if (String.eqb a "" || endswith_sep a)%bool then (a ++ b)%string
  else (a ++ "/" ++ b)%string.

End Path.

(** ** Results, events and the environment *)

Record VersionResult : Type := {
  Version : string;
  MSA_file : string;
  Key_Residues : list (Z * Q);
  Highly_Conserved : list (Z * Q)
}.

(** What [analyze_msa_file] draws before saving the figure. *)
Record Figure : Type := {
  line : list (Z * Q);
  highlighted : list (Z * Q);
  title : string
}.

(** One [f.write] of the per-file report.  A [Row] stands for
    [f"{pos}\t{score:.3f}\n"]. *)
Inductive ReportLine : Type :=
| Text (s : string)
| Row (pos : Z) (score : Q).

Inductive Event : Type :=
| Print (message : string)
| Makedirs (path : string)
| Savefig (path : string) (fig : Figure)
| WriteFile (path : string) (content : list ReportLine)
| ToCsv (path : string) (rows : list VersionResult).

(** The path an event creates a regular file at, if any. *)
Definition written_path (ev : Event) : option string :=
  match ev with
  | Savefig path _ | WriteFile path _ | ToCsv path _ => Some path
  | Print _ | Makedirs _ => None
  end.

(** The environment of a run: what is on disk and which library calls
    fail.  It is fixed during a run: the same path answers the same way
    each time it is asked. *)
Record World : Type := {
  path_exists : string -> bool;
  glob : string -> list string;
  AlignIO_read : string -> Exception + Alignment;
  makedirs_error : string -> option Exception;
  savefig_error : string -> option Exception;
  open_error : string -> option Exception;
  to_csv_error : string -> option Exception
}.

(** ** A monad for exceptions, local variables and the event trace

    A computation reads the values of the enclosing function's mutable
    locals [L] and the trace so far, and returns a value or a raised
    exception together with the locals and the trace as they are then:
    what was appended or printed before a [raise] stays. *)

Definition M (L A : Type) : Type :=
  L -> list Event -> (Exception + A) * L * list Event.

Definition ret {L A : Type} (a : A) : M L A :=
  fun l t => (inr a, l, t).

Definition bind {L A B : Type} (m : M L A) (f : A -> M L B) : M L B :=
  fun l t =>
    match m l t with
    | (inl e, l', t') => (inl e, l', t')
    | (inr a, l', t') => f a l' t'
    end.

Definition raise {L A : Type} (e : Exception) : M L A :=
  fun l t => (inl e, l, t).

(** [try: body  except Exception as e: handler(e)] *)
Definition try_except {L A : Type} (body : M L A)
    (handler : Exception -> M L A) : M L A :=
  fun l t =>
    match body l t with
    | (inl e, l', t') => handler e l' t'
    | (inr a, l', t') => (inr a, l', t')
    end.

Definition emit {L : Type} (ev : Event) : M L unit :=
  fun l t => (inr tt, l, t ++ [ev]).

Definition get_local {L : Type} : M L L :=
  fun l t => (inr l, l, t).

Definition modify_local {L : Type} (f : L -> L) : M L unit :=
  fun l t => (inr tt, f l, t).

(** Lift a pure computation that may raise. *)
Definition lift {L A : Type} (r : Exception + A) : M L A :=
  match r with
  | inl e => raise e
  | inr a => ret a
  end.

(** A call whose only outcome besides its event is a possible failure. *)
Definition guarded {L : Type} (err : option Exception) (ev : Event)
    : M L unit :=
  match err with
  | Some e => raise e
  | None => emit ev
  end.

(** Run a function body with fresh locals [l0] inside a caller whose own
    locals are untouched; the callee's locals are dropped on return. *)
Definition call {L L' A : Type} (l0 : L') (body : M L' A) : M L A :=
  fun l t =>
    match body l0 t with
    | (r, _, t') => (r, l, t')
    end.

Declare Scope monad_scope.
Delimit Scope monad_scope with monad.
Notation "x <- m ;; k" := (bind m (fun x => k))
  (at level 61, m at next level, right associativity) : monad_scope.
Notation "m ;; k" := (bind m (fun _ => k))
  (at level 61, right associativity) : monad_scope.

(** [for x in xs: body(x)] *)
Fixpoint for_each {L A : Type} (xs : list A) (body : A -> M L unit)
    : M L unit :=
  match xs with
  | [] => ret tt
  | x :: rest => bind (body x) (fun _ => for_each rest body)
  end.

(** ** The drivers *)

Local Open Scope string_scope.
Local Open Scope monad_scope.

Definition nl : string := String (ascii_of_nat 10) "".
Definition tab : string := String (ascii_of_nat 9) "".

(** [str(n)] for a length, [str(e)] for an exception. *)
Definition str_nat (n : nat) : string :=
  NilZero.string_of_uint (Nat.to_uint n).

Definition str (e : Exception) : string :=
  match e with
  | KeyError label => NilZero.string_of_int (Z.to_int label)
  | OtherError message => message
  end.

(** [sorted] on strings: insertion into lexicographic order. *)
Fixpoint insert_sorted (x : string) (l : list string) : list string :=
  match l with
  | [] => [x]
  | y :: rest => if String.leb x y then x :: l else y :: insert_sorted x rest
  end.

Definition sorted (l : list string) : list string :=
  fold_right insert_sorted [] l.

Definition root_name (file_path : string) : string :=
  Path.splitext_root (Path.basename file_path).

Definition plot_path (output_dir file_path : string) : string :=
  Path.join output_dir (root_name file_path ++ "_conservation.png").

Definition report_path (output_dir msa_file : string) : string :=
  Path.join output_dir (root_name msa_file ++ "_conserved.txt").

(** ** Decoding the sequences of the records

    [str(record.seq)] (line 19) decodes the bytes of a sequence as ASCII
    and raises [UnicodeDecodeError] at the first byte of 128 or more. *)

Definition is_ascii_byte (c : ascii) : bool :=
  Nat.ltb (nat_of_ascii c) 128.

Fixpoint first_non_ascii (l : list ascii) (position : nat)
    : option (ascii * nat) :=
  match l with
  | [] => None
  | c :: rest =>
      if is_ascii_byte c then first_non_ascii rest (S position)
      else Some (c, position)
  end.

Definition hex_digit (n : nat) : ascii :=
  nth n (list_ascii_of_string "0123456789abcdef") "0"%char.

Definition hex_byte (c : ascii) : string :=
  String (hex_digit (nat_of_ascii c / 16)%nat)
         (String (hex_digit (nat_of_ascii c mod 16)%nat) "").

Definition UnicodeDecodeError (byte : ascii) (position : nat) : Exception :=
  OtherError ("'ascii' codec can't decode byte 0x" ++ hex_byte byte
              ++ " in position " ++ str_nat position
              ++ ": ordinal not in range(128)").

(** [str(record.seq)] for one record. *)
Definition str_seq (s : string) : Exception + string :=
  match first_non_ascii (list_ascii_of_string s) 0 with
  | Some (byte, position) => inl (UnicodeDecodeError byte position)
  | None => inr s
  end.

(** [[str(record.seq) for record in alignment]], record by record. *)
Fixpoint decode_records (alignment : Alignment) : Exception + Alignment :=
  match alignment with
  | [] => inr []
  | s :: rest =>
      match str_seq s with
      | inl e => inl e
      | inr decoded =>
          match decode_records rest with
          | inl e => inl e
          | inr others => inr (decoded :: others)
          end
      end
  end.

Section Drivers.

Variable w : World.

(** Lines 26-54.  Line 29 scores the records read, which starts by
    decoding them (line 19).  The highlighting loop has the guard and the
    lookup of [analyze_key_residues], so its marked points are
    [key_residue_rows]. *)
Definition analyze_msa_file {L : Type} (file_path output_dir : string)
    : M L (list (Z * Q) * list Q) :=
  alignment <- lift (AlignIO_read w file_path) ;;
  sequences <- lift (decode_records alignment) ;;
  let conservation_scores := calculate_conservation_scores sequences in
  let xs := map Z.of_nat (seq 1 (length conservation_scores)) in
  marks <- lift (key_residue_rows conservation_scores
                   residues_to_highlight []) ;;
  let fig := {| line := combine xs conservation_scores;
                highlighted := marks;
                title := "Conservation Scores - "
                         ++ Path.basename file_path |} in
  guarded (makedirs_error w output_dir) (Makedirs output_dir) ;;
  let output_plot := plot_path output_dir file_path in
  guarded (savefig_error w output_plot) (Savefig output_plot fig) ;;
  let highly_conserved := highly_conserved conservation_scores in
  ret (highly_conserved, conservation_scores).

Definition report_content (msa_file : string)
    (highly_conserved : list (Z * Q)) : list ReportLine :=
  Text ("Highly conserved residues (score > 0.95) in "
        ++ Path.basename msa_file ++ ":" ++ nl)
  :: Text ("Position" ++ tab ++ "Conservation Score" ++ nl)
  :: map (fun ps => Row (fst ps) (snd ps)) highly_conserved.

(** Lines 86-96: everything of the [try] block up to the entry being
    built.  Line 89 scores the records read on line 88 again, decoding
    them first (lines 59 and 19). *)
Definition analyze_entry {L : Type} (version_name output_dir : string)
    (msa_file : string) : M L VersionResult :=
  hs <- analyze_msa_file msa_file output_dir ;;
  alignment <- lift (AlignIO_read w msa_file) ;;
  sequences <- lift (decode_records alignment) ;;
  key_residues <- lift (analyze_key_residues sequences
                          residues_to_highlight) ;;
  ret {| Version := version_name;
         MSA_file := Path.basename msa_file;
         Key_Residues := key_residues;
         Highly_Conserved := fst hs |}.

(** Lines 98-105: the report, written after the entry was appended. *)
Definition write_report {L : Type} (output_dir msa_file : string)
    (highly_conserved : list (Z * Q)) : M L unit :=
  let output_file := report_path output_dir msa_file in
  guarded (open_error w output_file)
          (WriteFile output_file
             (report_content msa_file highly_conserved)) ;;
  emit (Print ("Analysis complete. Results saved to " ++ output_file)).

(** Lines 85-105, the body of the [try]; the local is [all_results]. *)
Definition try_body (version_name output_dir msa_file : string)
    : M (list VersionResult) unit :=
  entry <- analyze_entry version_name output_dir msa_file ;;
  modify_local (fun all_results => (all_results ++ [entry])%list) ;;
  write_report output_dir msa_file (Highly_Conserved entry).

Definition error_message (msa_file : string) (e : Exception) : string :=
  "Error analyzing " ++ msa_file ++ ": " ++ str e.

(** Lines 83-108: one round of the loop over the files. *)
Definition process_file (version_name output_dir msa_file : string)
    : M (list VersionResult) unit :=
  emit (Print (nl ++ "Analyzing " ++ Path.basename msa_file ++ "...")) ;;
  try_except (try_body version_name output_dir msa_file)
             (fun e => emit (Print (error_message msa_file e))).

(** Lines 72-110. *)
Definition process_folder {L : Type} (folder_path : string)
    : M L (list VersionResult) :=
  call []
    (let version_name := Path.basename folder_path in
     let output_dir := Path.join "results" version_name in
     guarded (makedirs_error w output_dir) (Makedirs output_dir) ;;
     let msa_files := glob w (Path.join folder_path "*.afa") in
     emit (Print (nl ++ "Processing " ++ version_name ++ ": Found "
                  ++ str_nat (length msa_files) ++ " MSA files")) ;;
     modify_local (fun _ => []) ;;
     for_each (sorted msa_files)
              (process_file version_name output_dir) ;;
     get_local).

Definition versions : list string := ["v1"; "v2"; "v3"].

Definition combined_path : string :=
  Path.join "results" "combined_analysis.tsv".

(** Lines 117-123: one round of the loop over the versions; the local is
    [all_version_results]. *)
Definition process_version (version : string)
    : M (list VersionResult) unit :=
  if path_exists w version then
    emit (Print (nl ++ "Processing " ++ version ++ "...")) ;;
    results <- process_folder version ;;
    modify_local (fun all_version_results =>
                    (all_version_results ++ results)%list)
  else
    emit (Print (nl ++ "Warning: " ++ version ++ " folder not found")).

(** Lines 113-130; the local is [all_version_results]. *)
Definition main : M (list VersionResult) unit :=
  guarded (makedirs_error w "results") (Makedirs "results") ;;
  modify_local (fun _ => []) ;;
  for_each versions process_version ;;
  all_version_results <- get_local ;;
  match all_version_results with
  | [] => ret tt
  | _ :: _ =>
      let output_file := combined_path in
      guarded (to_csv_error w output_file)
              (ToCsv output_file all_version_results) ;;
      emit (Print (nl ++ "Combined results saved to " ++ output_file))
  end.

End Drivers.

(** A run of the program: no locals yet, nothing printed or written. *)
Definition run_main (w : World)
    : (Exception + unit) * list VersionResult * list Event :=
  main w [] [].

(** No event of the trace creates a file at [path]. *)
Definition never_written (path : string) (t : list Event) : Prop :=
  forall ev, In ev t -> written_path ev <> Some path.

Local Close Scope monad_scope.
Local Close Scope string_scope.

(** ** Vocabulary for the drivers' properties *)

(** The outcome of the analysis part of the [try] block on one file: the
    entry built for it, or the exception raised before it is appended. *)
Definition analysis_outcome (w : World) (version_name output_dir : string)
    (msa_file : string) : Exception + VersionResult :=
  fst (fst (analyze_entry w version_name output_dir msa_file
                          (@nil VersionResult) [])).

(** The exception that leaves the [try] block on one file, if any. *)
Definition try_failure (w : World) (version_name output_dir : string)
    (msa_file : string) : option Exception :=
  match analysis_outcome w version_name output_dir msa_file with
  | inl e => Some e
  | inr _ => open_error w (report_path output_dir msa_file)
  end.

Definition entries_of_outcome (r : Exception + VersionResult)
    : list VersionResult :=
  match r with
  | inl _ => []
  | inr entry => [entry]
  end.

(** A computation whose effect on the locals and on the trace is to
    append to both, in a way that does not depend on what they hold. *)
Definition framed {A : Type} (m : M (list VersionResult) A) : Prop :=
  forall l t,
    m l t = (fst (fst (m [] [])),
             l ++ snd (fst (m [] [])),
             t ++ snd (m [] [])).

(** A computation that keeps an invariant of the events of the trace. *)
Definition keeps {L A : Type} (P : Event -> Prop) (m : M L A) : Prop :=
  forall l t, Forall P t -> Forall P (snd (m l t)).

(** An event that does not touch the combined table. *)
Definition per_file_event (ev : Event) : Prop :=
  match ev with
  | ToCsv _ _ => False
  | Savefig path _ | WriteFile path _ =>
      path <> "results/combined_analysis.tsv"%string
  | Print _ | Makedirs _ => True
  end.

(** A computation that leaves the locals as they are. *)
Definition locals_kept {L A : Type} (m : M L A) : Prop :=
  forall l t, snd (fst (m l t)) = l.

Definition analyzing_message (msa_file : string) : string :=
  (nl ++ "Analyzing " ++ Path.basename msa_file ++ "...")%string.

(** ** Sample environments *)

Definition sample_alignment : Alignment :=
  ["ACDEF"; "ACDEF"; "ACDEF"]%string.

(** Nothing on disk: no version folder exists. *)
Definition empty_world : World :=
  {| path_exists := fun _ => false;
     glob := fun _ => [];
     AlignIO_read := fun _ => inl (OtherError "No such file or directory");
     makedirs_error := fun _ => None;
     savefig_error := fun _ => None;
     open_error := fun _ => None;
     to_csv_error := fun _ => None |}.

(** Folder [v1] holds a malformed file and a well-formed one. *)
Definition one_bad_file_world : World :=
  {| path_exists := fun p => String.eqb p "v1";
     glob := fun pattern =>
       if String.eqb pattern "v1/*.afa"
       then ["v1/good.afa"; "v1/bad.afa"]%string else [];
     AlignIO_read := fun p =>
       if String.eqb p "v1/good.afa" then inr sample_alignment
       else inl (OtherError "No records found in handle");
     makedirs_error := fun _ => None;
     savefig_error := fun _ => None;
     open_error := fun _ => None;
     to_csv_error := fun _ => None |}.

(** Folder [v1] exists and holds one malformed file. *)
Definition only_bad_file_world : World :=
  {| path_exists := fun p => String.eqb p "v1";
     glob := fun pattern =>
       if String.eqb pattern "v1/*.afa" then ["v1/bad.afa"]%string else [];
     AlignIO_read := fun _ =>
       inl (OtherError "No records found in handle");
     makedirs_error := fun _ => None;
     savefig_error := fun _ => None;
     open_error := fun _ => None;
     to_csv_error := fun _ => None |}.

(** Folder [v1] holds one well-formed file, and its report cannot be
    opened for writing. *)
Definition unwritable_report_world : World :=
  {| path_exists := fun p => String.eqb p "v1";
     glob := fun pattern =>
       if String.eqb pattern "v1/*.afa" then ["v1/a.afa"]%string else [];
     AlignIO_read := fun _ => inr sample_alignment;
     makedirs_error := fun _ => None;
     savefig_error := fun _ => None;
     open_error := fun _ => Some (OtherError "Permission denied");
     to_csv_error := fun _ => None |}.
(** ** Vocabulary for further properties *)

(** The rows of the normalized frame, read back as sequences: every
    sequence filled up to the width, with the gap marker in place of
    every missing or non-canonical symbol. *)
Definition normalized_rows (alignment : Alignment) : Alignment :=
  map string_of_list_ascii (normalized_frame alignment).

(** A name without a path separator. *)
Definition slash_free (name : string) : Prop :=
  ~ In Path.sep (list_ascii_of_string name).

(** The same environment with another directory listing. *)
Definition with_glob (w : World) (listing : string -> list string) : World :=
  {| path_exists := path_exists w;
     glob := listing;
     AlignIO_read := AlignIO_read w;
     makedirs_error := makedirs_error w;
     savefig_error := savefig_error w;
     open_error := open_error w;
     to_csv_error := to_csv_error w |}.

Definition string_le (a b : string) : Prop := String.leb a b = true.

(** A name that holds some character other than the dot. *)
Definition has_stem (name : string) : Prop :=
  exists c, In c (list_ascii_of_string name) /\ c <> Path.extsep.

(** The entry [process_folder] builds for a file it read as [alignment]. *)
Definition entry_of_alignment (version_name msa_file : string)
    (alignment : Alignment) : VersionResult :=
  let scores := calculate_conservation_scores alignment in
  {| Version := version_name;
     MSA_file := Path.basename msa_file;
     Key_Residues :=
       map (row_at scores) (filter (in_bounds scores) residues_to_highlight);
     Highly_Conserved := highly_conserved scores |}.

(** The figure [analyze_msa_file] saves for a file read as [alignment]. *)
Definition figure_of_alignment (msa_file : string) (alignment : Alignment)
    : Figure :=
  let scores := calculate_conservation_scores alignment in
  {| line := combine (map Z.of_nat (seq 1 (length scores))) scores;
     highlighted :=
       map (row_at scores) (filter (in_bounds scores) residues_to_highlight);
     title := ("Conservation Scores - " ++ Path.basename msa_file)%string |}.

(** The last console line of a run that wrote the combined table. *)
Definition combined_saved_message : string :=
  (nl ++ "Combined results saved to " ++ combined_path)%string.

(** The places a run may create something at: the results directory,
    one directory per version, files directly inside a version's
    directory, and the combined table. *)
Definition in_version_directory (path : string) : Prop :=
  exists version name,
    In version versions /\ slash_free name
    /\ path = ("results/" ++ version ++ "/" ++ name)%string.

Definition confined (ev : Event) : Prop :=
  match ev with
  | Print _ => True
  | Makedirs path =>
      path = "results"%string
      \/ exists version,
           In version versions /\ path = ("results/" ++ version)%string
  | Savefig path _ | WriteFile path _ => in_version_directory path
  | ToCsv path _ => path = "results/combined_analysis.tsv"%string
  end.

(** Where an entry of the combined table comes from: a file listed in the
    folder of a configured version that exists, whose analysis went
    through and produced that entry. *)
Definition entry_provenance (w : World) (entry : VersionResult) : Prop :=
  exists version msa_file,
    In version versions
    /\ path_exists w version = true
    /\ In msa_file (glob w (Path.join version "*.afa"))
    /\ analysis_outcome w version (Path.join "results" version) msa_file
       = inr entry
    /\ Version entry = version
    /\ MSA_file entry = Path.basename msa_file.

(** Folder [v1] exists, and its output directory cannot be created. *)
Definition unwritable_results_world : World :=
  {| path_exists := fun p => String.eqb p "v1";
     glob := fun pattern =>
       if String.eqb pattern "v1/*.afa" then ["v1/a.afa"]%string else [];
     AlignIO_read := fun _ => inr sample_alignment;
     makedirs_error := fun p =>
       if String.eqb p "results/v1"
       then Some (OtherError "Permission denied") else None;
     savefig_error := fun _ => None;
     open_error := fun _ => None;
     to_csv_error := fun _ => None |}.

(** One step of the scan of [basename]: a separator forgets what was
    read so far. *)
Definition basename_step (acc : list ascii) (c : ascii) : list ascii :=
  if Ascii.eqb c Path.sep then [] else acc ++ [c].

(** Sequences whose bytes are all below 128. *)
Definition pure_ascii (alignment : Alignment) : Prop :=
  forall s c,
    In s alignment -> In c (list_ascii_of_string s) ->
    nat_of_ascii c < 128.

(** Folder [v1] holds one file whose second record has the byte 0xE9 at
    index 2 of its sequence. *)
Definition undecodable_world : World :=
  {| path_exists := fun p => String.eqb p "v1";
     glob := fun pattern =>
       if String.eqb pattern "v1/*.afa" then ["v1/a.afa"]%string else [];
     AlignIO_read := fun _ =>
       inr ["ACDEF"; String "A" (String "C" (String (ascii_of_nat 233)
                                               "EF"))]%string;
     makedirs_error := fun _ => None;
     savefig_error := fun _ => None;
     open_error := fun _ => None;
     to_csv_error := fun _ => None |}.

(** * Properties *)

(** ** The definitions on concrete inputs *)

Example profile_ragged_rows :
  calculate_conservation_scores ["AC-"; "AXx"; "GD"]%string
  = [2 # 3; 1 # 3; 1]%Q.
Proof. reflexivity. Qed.

Example profile_no_sequences : calculate_conservation_scores [] = [].
Proof. reflexivity. Qed.

Example highly_conserved_threshold :
  highly_conserved [1; 95 # 100; 96 # 100; 1 # 2; 19 # 20]%Q
  = [(1, 1%Q); (3, (96 # 100)%Q)]%Z.
Proof. reflexivity. Qed.

Example key_residues_width_400 :
  length (calculate_conservation_scores
            [string_of_list_ascii (repeat "A"%char 400)]) = 400
  /\ analyze_key_residues [string_of_list_ascii (repeat "A"%char 400)]
                          residues_to_highlight
     = inr [(285%Z, 1%Q)].
Proof. split; vm_compute; reflexivity. Qed.

Example basename_of_path :
  Path.basename "v1/falcipain.afa" = "falcipain.afa"%string
  /\ Path.basename "v1" = "v1"%string.
Proof. split; reflexivity. Qed.

Example splitext_of_names :
  Path.splitext_root "falcipain.2.afa" = "falcipain.2"%string
  /\ Path.splitext_root ".afa" = ".afa"%string
  /\ Path.splitext_root "noext" = "noext"%string.
Proof. repeat split; reflexivity. Qed.

Example report_path_of_file :
  report_path "results/v1" "v1/falcipain.afa"
  = "results/v1/falcipain_conserved.txt"%string
  /\ plot_path "results/v1" "v1/falcipain.afa"
     = "results/v1/falcipain_conservation.png"%string.
Proof. split; reflexivity. Qed.

Example sorted_file_names :
  sorted ["v1/b.afa"; "v1/a.afa"; "v1/B.afa"]%string
  = ["v1/B.afa"; "v1/a.afa"; "v1/b.afa"]%string.
Proof. reflexivity. Qed.

Example run_with_one_bad_file :
  run_main one_bad_file_world
  = (inr tt,
     [{| Version := "v1"; MSA_file := "good.afa"; Key_Residues := [];
         Highly_Conserved :=
           [(1, 1%Q); (2, 1%Q); (3, 1%Q); (4, 1%Q); (5, 1%Q)]%Z |}],
     snd (run_main one_bad_file_world))
  /\ In (Print "Error analyzing v1/bad.afa: No records found in handle")
        (snd (run_main one_bad_file_world))
  /\ exists rows,
       In (ToCsv "results/combined_analysis.tsv" rows)
          (snd (run_main one_bad_file_world)).
Proof.
  split; [reflexivity|]. split; [vm_compute; tauto|].
  eexists. vm_compute. repeat (first [left; reflexivity | right]).
Qed.

(** ** Counting *)

Section Counting.

Implicit Types (col u : list ascii) (a s : ascii).

Lemma count_cons a col s :
  count (a :: col) s = count col s + (if ascii_dec a s then 1 else 0).
Proof.
  unfold count. simpl. destruct (ascii_dec a s); lia.
Qed.

Lemma sum_counts_cons u a col :
  NoDup u ->
  sum_nat (map (count (a :: col)) u)
  = sum_nat (map (count col) u) + (if in_dec ascii_dec a u then 1 else 0).
Proof.
  unfold sum_nat. induction 1 as [|x u Hx Hu IH]; [reflexivity|].
  cbn [map fold_right]. rewrite IH, count_cons.
  destruct (ascii_dec a x) as [->|Hax].
  - destruct (in_dec ascii_dec x (x :: u)) as [_|n];
      [|exfalso; apply n; now left].
    destruct (in_dec ascii_dec x u); [contradiction|]. lia.
  - destruct (in_dec ascii_dec a (x :: u)) as [[E|i]|n];
      destruct (in_dec ascii_dec a u) as [i'|n']; try lia.
    + congruence.
    + contradiction.
    + exfalso. apply n. now right.
Qed.

Lemma sum_counts_length col :
  sum_nat (map snd (value_counts col)) = length col.
Proof.
  unfold value_counts. rewrite map_map. cbn [snd].
  change (sum_nat (map (count col) (nodup ascii_dec col)) = length col).
  induction col as [|a col IH]; [reflexivity|].
  cbn [nodup length]. destruct (in_dec ascii_dec a col) as [i|n].
  - rewrite sum_counts_cons by apply NoDup_nodup. rewrite IH.
    destruct (in_dec ascii_dec a (nodup ascii_dec col)) as [_|n].
    + lia.
    + exfalso. apply n. now apply nodup_In.
  - cbn [map]. unfold sum_nat at 1. cbn [fold_right].
    fold (sum_nat (map (count (a :: col)) (nodup ascii_dec col))).
    rewrite sum_counts_cons by apply NoDup_nodup. rewrite IH, count_cons.
    destruct (in_dec ascii_dec a (nodup ascii_dec col)) as [i|_].
    + exfalso. apply n. now apply (nodup_In ascii_dec).
    + unfold count.
      rewrite (proj1 (count_occ_not_In ascii_dec col a) n).
      destruct (ascii_dec a a); [lia|congruence].
Qed.

Lemma list_max_map_incl {A : Type} (f : A -> nat) (l1 l2 : list A) :
  incl l1 l2 -> list_max (map f l1) <= list_max (map f l2).
Proof.
  intros Hincl. apply list_max_le. apply Forall_forall.
  intros k Hk. apply in_map_iff in Hk as (x & <- & Hx).
  assert (H : list_max (map f l2) <= list_max (map f l2)) by lia.
  apply list_max_le in H. rewrite Forall_forall in H.
  apply H. apply in_map. now apply Hincl.
Qed.

Lemma max_count_nodup col :
  list_max (map (count col) (nodup ascii_dec col)) = max_count col.
Proof.
  unfold max_count. apply Nat.le_antisymm; apply list_max_map_incl;
    intros x Hx; now apply (nodup_In ascii_dec).
Qed.

(** A symbol of the column that no symbol outnumbers is counted
    [max_count] times. *)
Lemma max_count_spec col s :
  In s col -> (forall t, In t col -> count col t <= count col s) ->
  max_count col = count col s.
Proof.
  intros Hs Hmax. unfold max_count. apply Nat.le_antisymm.
  - apply list_max_le. apply Forall_forall. intros k Hk.
    apply in_map_iff in Hk as (t & <- & Ht). now apply Hmax.
  - assert (H : list_max (map (count col) col)
                <= list_max (map (count col) col)) by lia.
    apply list_max_le in H. rewrite Forall_forall in H.
    apply H. now apply in_map.
Qed.

(** Some symbol of a non-empty column attains [max_count]. *)
Lemma max_count_attained col :
  col <> [] ->
  exists s, In s col /\ count col s = max_count col
            /\ forall t, count col t <= count col s.
Proof.
  intros Hne. unfold max_count.
  assert (Hne' : map (count col) col <> []) by (destruct col; [congruence|discriminate]).
  assert (Hin : In (list_max (map (count col) col)) (map (count col) col)).
  { revert Hne'. generalize (map (count col) col) as l.
    induction l as [|x l IH]; [congruence|]. intros _.
    destruct l as [|y l].
    - simpl. left. lia.
    - change (list_max (x :: y :: l)) with (Nat.max x (list_max (y :: l))).
      destruct (Nat.max_dec x (list_max (y :: l))) as [E|E]; rewrite E.
      + now left.
      + right. apply IH. discriminate. }
  apply in_map_iff in Hin as (s & Hs & Hin).
  exists s. split; [assumption|]. split; [assumption|].
  intros t. rewrite Hs.
  destruct (in_dec ascii_dec t col) as [i|n].
  - assert (H : list_max (map (count col) col)
                <= list_max (map (count col) col)) by lia.
    apply list_max_le in H. rewrite Forall_forall in H.
    apply H. now apply in_map.
  - unfold count at 1. rewrite (proj1 (count_occ_not_In ascii_dec col t) n). lia.
Qed.

End Counting.

(** ** Frequencies and their maximum *)

Section Frequencies.

Variable total : nat.

Lemma frequency_Qeq (c : nat) :
  (frequency total c == Z.of_nat c # Pos.of_nat total)%Q.
Proof. unfold frequency. apply Qred_correct. Qed.

Lemma frequency_le (a b : nat) :
  Qle_bool (frequency total a) (frequency total b) = (a <=? b).
Proof.
  apply eq_true_iff_eq. rewrite Qle_bool_iff, Nat.leb_le.
  rewrite !frequency_Qeq. unfold Qle. cbn [Qnum Qden].
  split; intros H.
  - apply Nat2Z.inj_le.
    apply (Z.mul_le_mono_pos_r _ _ (Z.pos (Pos.of_nat total))); lia.
  - apply Z.mul_le_mono_nonneg_r; lia.
Qed.

Lemma Qmax2_frequency (a b : nat) :
  Qmax2 (frequency total a) (frequency total b)
  = frequency total (Nat.max a b).
Proof.
  unfold Qmax2. rewrite frequency_le.
  destruct (Nat.leb_spec a b) as [H|H].
  - now rewrite Nat.max_r.
  - rewrite Nat.max_l; [reflexivity|lia].
Qed.

Lemma fold_Qmax2_frequency (l : list nat) (a : nat) :
  fold_left Qmax2 (map (frequency total) l) (frequency total a)
  = frequency total (Nat.max a (list_max l)).
Proof.
  revert a. induction l as [|x l IH]; intros a.
  - cbn. now rewrite Nat.max_0_r.
  - cbn [map fold_left]. rewrite Qmax2_frequency, IH.
    change (list_max (x :: l)) with (Nat.max x (list_max l)).
    now rewrite Nat.max_assoc.
Qed.

Lemma series_max_frequency (l : list nat) :
  l <> [] ->
  series_max (map (frequency total) l) = frequency total (list_max l).
Proof.
  destruct l as [|x l]; [congruence|]. intros _.
  cbn [map series_max]. apply fold_Qmax2_frequency.
Qed.

End Frequencies.

Lemma frequency_all (n : nat) : 0 < n -> frequency n n = 1%Q.
Proof.
  intros Hn. unfold frequency.
  change 1%Q with (Qred 1). apply Qred_complete.
  unfold Qeq. cbn [Qnum Qden]. lia.
Qed.

Lemma Qred_unit_fraction (p : positive) : Qred (1 # p) = (1 # p)%Q.
Proof. destruct p; reflexivity. Qed.

Lemma frequency_one (n : nat) : frequency n 1 = (1 # Pos.of_nat n)%Q.
Proof. unfold frequency. apply Qred_unit_fraction. Qed.

Lemma frequency_above_threshold (n c : nat) :
  0 < n -> 95 * n < 100 * c -> above_threshold (frequency n c) = true.
Proof.
  intros Hn Hc. unfold above_threshold. apply negb_true_iff.
  apply not_true_is_false. rewrite Qle_bool_iff, frequency_Qeq.
  unfold Qle, threshold. cbn [Qnum Qden]. lia.
Qed.

(** The score of a non-empty column is the largest count over the number
    of rows. *)
Lemma column_score_max_count (col : list ascii) :
  col <> [] ->
  column_score col = frequency (length col) (max_count col).
Proof.
  intros Hne. unfold column_score, value_counts_normalized.
  rewrite sum_counts_length, map_map. cbn [snd].
  unfold value_counts. rewrite map_map. cbn [snd].
  rewrite <- (map_map (count_occ ascii_dec col) (frequency (length col))).
  rewrite series_max_frequency.
  - f_equal. apply max_count_nodup.
  - destruct col as [|a col]; [congruence|].
    intros H. apply map_eq_nil in H.
    assert (Hin : In a (nodup ascii_dec (a :: col)))
      by (apply nodup_In; now left).
    rewrite H in Hin. destruct Hin.
Qed.

(** ** The frame of an alignment *)

Lemma width_ge {A : Type} (rows : list (list A)) (row : list A) :
  In row rows -> length row <= Frame.width rows.
Proof.
  intros Hin. unfold Frame.width.
  assert (H : list_max (map (@length A) rows)
              <= list_max (map (@length A) rows)) by lia.
  apply list_max_le in H. rewrite Forall_forall in H.
  apply H. now apply in_map.
Qed.

Lemma nth_padded_row (row : list ascii) (k j : nat) :
  nth j (map Some row ++ repeat None k) None = nth_error row j.
Proof.
  revert j. induction row as [|a row IH]; intros j.
  - cbn [map app]. rewrite nth_repeat. now destruct j.
  - destruct j as [|j]; [reflexivity|]. cbn. apply IH.
Qed.

Lemma column_normalized (alignment : Alignment) (j : nat) :
  Frame.column gap j (normalized_frame alignment)
  = normalized_column alignment j.
Proof.
  unfold Frame.column, normalized_frame, Frame.applymap, Frame.DataFrame,
    normalized_column.
  rewrite !map_map. apply map_ext. intros s.
  change gap with (normalize None). rewrite map_nth.
  now rewrite nth_padded_row.
Qed.

Lemma ncols_normalized_frame (alignment : Alignment) :
  Frame.ncols (normalized_frame alignment) = alignment_width alignment.
Proof.
  unfold normalized_frame, alignment_width, Frame.applymap, Frame.DataFrame.
  destruct alignment as [|s rest]; [reflexivity|].
  cbn [map Frame.ncols]. rewrite length_map, length_app, length_map, repeat_length.
  pose proof (width_ge (list_ascii_of_string s
                          :: map list_ascii_of_string rest)
                       (list_ascii_of_string s) (or_introl eq_refl)).
  lia.
Qed.

Lemma length_profile (alignment : Alignment) :
  length (calculate_conservation_scores alignment)
  = alignment_width alignment.
Proof.
  unfold calculate_conservation_scores, Frame.apply_columns.
  now rewrite length_map, length_seq, ncols_normalized_frame.
Qed.

Lemma width_positive_nonempty (alignment : Alignment) (j : nat) :
  j < alignment_width alignment -> 0 < length alignment.
Proof.
  destruct alignment; [cbn; lia|cbn [length]; lia].
Qed.

(** The score at a column: the largest count of a normalized symbol over
    the number of sequences. *)
Lemma score_at (alignment : Alignment) (j : nat) :
  j < alignment_width alignment ->
  nth_error (calculate_conservation_scores alignment) j
  = Some (frequency (length alignment)
                    (max_count (normalized_column alignment j))).
Proof.
  intros Hj. pose proof (width_positive_nonempty _ _ Hj) as Hn.
  unfold calculate_conservation_scores, Frame.apply_columns.
  rewrite ncols_normalized_frame.
  rewrite nth_error_map, nth_error_seq.
  destruct (Nat.ltb_spec j (alignment_width alignment)) as [_|H]; [|lia].
  cbn [option_map Nat.add]. f_equal.
  rewrite column_normalized, column_score_max_count.
  - unfold normalized_column. now rewrite length_map.
  - unfold normalized_column. destruct alignment; [cbn in Hn; lia|discriminate].
Qed.

(** ** Enumeration and the highly-conserved view *)

Section Enumerate.

Context {A : Type}.

Lemma in_combine_seq (l : list A) (k i : nat) (x : A) :
  In (i, x) (combine (seq k (length l)) l)
  <-> k <= i /\ nth_error l (i - k) = Some x.
Proof.
  revert k. induction l as [|a l IH]; intros k.
  - cbn. split; [tauto|]. intros [_ H]. destruct (i - k); discriminate.
  - cbn [length seq combine In]. rewrite IH. split.
    + intros [E|[Hk H]].
      * injection E as <- <-. rewrite Nat.sub_diag. split; [lia|reflexivity].
      * split; [lia|]. replace (i - k) with (S (i - S k)) by lia. exact H.
    + intros [Hk H]. destruct (Nat.eq_dec k i) as [<-|Hne].
      * left. rewrite Nat.sub_diag in H. cbn in H. congruence.
      * right. split; [lia|].
        replace (i - k) with (S (i - S k)) in H by lia. exact H.
Qed.

Lemma in_enumerate (l : list A) (i : nat) (x : A) :
  In (i, x) (enumerate l) <-> nth_error l i = Some x.
Proof.
  unfold enumerate. rewrite in_combine_seq, Nat.sub_0_r.
  split; [tauto|]. intros H. split; [lia|exact H].
Qed.

End Enumerate.

Lemma in_highly_conserved (scores : list Q) (p : Z) (s : Q) :
  In (p, s) (highly_conserved scores)
  <-> exists i, p = (Z.of_nat i + 1)%Z /\ nth_error scores i = Some s
                /\ above_threshold s = true.
Proof.
  unfold highly_conserved. rewrite in_map_iff. split.
  - intros ([i x] & E & Hin). cbn [fst snd] in E. injection E as <- <-.
    apply filter_In in Hin as [Hin Hab]. apply in_enumerate in Hin.
    exists i. auto.
  - intros (i & -> & Hnth & Hab). exists (i, s). split; [reflexivity|].
    apply filter_In. split; [now apply in_enumerate|exact Hab].
Qed.

(** From index [k] on: positions ascend and the scores are the filtered
    profile. *)
Lemma highly_conserved_from (l : list Q) (k : nat) :
  let hc := map (fun p => (Z.of_nat (fst p) + 1, snd p)%Z)
                (filter (fun p => above_threshold (snd p))
                        (combine (seq k (length l)) l)) in
  StronglySorted Z.lt (map fst hc)
  /\ Forall (fun p => (Z.of_nat k < p)%Z) (map fst hc)
  /\ map snd hc = filter above_threshold l.
Proof.
  revert k. induction l as [|a l IH]; intros k.
  - cbn. repeat split; constructor.
  - cbn [length seq combine filter snd].
    specialize (IH (S k)). cbn zeta in IH. destruct IH as (Hs & Hall & Hsnd).
    assert (Hall' : Forall (fun p => (Z.of_nat k < p)%Z)
              (map fst (map (fun p => (Z.of_nat (fst p) + 1, snd p)%Z)
                (filter (fun p => above_threshold (snd p))
                        (combine (seq (S k) (length l)) l))))).
    { eapply Forall_impl; [|exact Hall]. cbn beta. intros p Hp. lia. }
    destruct (above_threshold a).
    + cbn [map fst snd]. repeat split.
      * constructor; [exact Hs|].
        eapply Forall_impl; [|exact Hall]. cbn beta. intros p Hp. lia.
      * constructor; [lia|exact Hall'].
      * now rewrite Hsnd.
    + repeat split; assumption.
Qed.

(** ** Auxiliary facts for the scorer's properties *)

Lemma is_valid_In (c : ascii) :
  is_valid c = true <-> In c valid_amino_acids.
Proof.
  unfold is_valid. rewrite existsb_exists. split.
  - intros (x & Hx & E). apply Ascii.eqb_eq in E. now subst.
  - intros H. exists c. split; [exact H|apply Ascii.eqb_refl].
Qed.

Lemma normalize_not_valid (c : ascii) :
  ~ In c valid_amino_acids -> normalize (Some c) = gap.
Proof.
  intros H. unfold normalize. destruct (is_valid c) eqn:E; [|reflexivity].
  apply is_valid_In in E. contradiction.
Qed.

Lemma count_constant (col : list ascii) (c : ascii) :
  (forall x, In x col -> x = c) -> count col c = length col.
Proof.
  induction col as [|a col IH]; intros H; [reflexivity|].
  rewrite count_cons, IH by (intros x Hx; apply H; now right).
  rewrite (H a (or_introl eq_refl)).
  cbn [length]. destruct (ascii_dec c c); [lia|congruence].
Qed.

Lemma max_count_constant (col : list ascii) (c : ascii) :
  col <> [] -> (forall x, In x col -> x = c) -> max_count col = length col.
Proof.
  intros Hne H. rewrite <- (count_constant col c H).
  apply max_count_spec.
  - destruct col as [|a col]; [congruence|].
    rewrite <- (H a (or_introl eq_refl)). now left.
  - intros t _. rewrite (count_constant col c H).
    unfold count. apply count_occ_bound.
Qed.

Lemma max_count_NoDup (col : list ascii) :
  col <> [] -> NoDup col -> max_count col = 1.
Proof.
  intros Hne Hd. destruct col as [|a col]; [congruence|].
  assert (Ha : count (a :: col) a = 1).
  { pose proof (proj1 (NoDup_count_occ ascii_dec (a :: col)) Hd a).
    pose proof (proj1 (count_occ_In ascii_dec (a :: col) a)
                      (or_introl eq_refl)).
    unfold count. lia. }
  rewrite <- Ha. apply max_count_spec; [now left|].
  intros t _. rewrite Ha.
  apply (proj1 (NoDup_count_occ ascii_dec (a :: col)) Hd t).
Qed.

Lemma length_list_ascii_of_string (s : string) :
  length (list_ascii_of_string s) = String.length s.
Proof. induction s as [|c s IH]; [reflexivity|]. cbn. now rewrite IH. Qed.

Lemma above_threshold_Qlt (s : Q) :
  above_threshold s = true <-> (95 # 100 < s)%Q.
Proof.
  unfold above_threshold, threshold. rewrite negb_true_iff. split.
  - intros H. apply Qnot_le_lt. intros Hle.
    apply Qle_bool_iff in Hle. congruence.
  - intros H. apply not_true_is_false. rewrite Qle_bool_iff.
    now apply Qlt_not_le.
Qed.

(** * The claims *)

(** ** Scorer *)

Lemma normalize_valid (c : ascii) :
  In c valid_amino_acids -> normalize (Some c) = c.
Proof.
  intros H. unfold normalize. now rewrite (proj2 (is_valid_In c) H).
Qed.

Lemma gap_not_valid : is_valid gap = false.
Proof. reflexivity. Qed.

Lemma normalized_column_of_raw (alignment : Alignment) (j : nat) :
  normalized_column alignment j = map normalize (raw_column alignment j).
Proof. unfold normalized_column, raw_column. now rewrite map_map. Qed.

Lemma count_normalized_valid (raw : list Frame.cell) (c : ascii) :
  In c valid_amino_acids ->
  count (map normalize raw) c = length (filter (carries c) raw).
Proof.
  intros Hc. apply is_valid_In in Hc.
  induction raw as [|x raw IH]; [reflexivity|].
  cbn [map filter]. rewrite count_cons, IH.
  destruct x as [a|]; cbn [normalize carries].
  - destruct (is_valid a) eqn:Ea.
    + destruct (ascii_dec a c) as [->|Hne].
      * rewrite Ascii.eqb_refl. cbn [length]. lia.
      * rewrite (proj2 (Ascii.eqb_neq a c) Hne). lia.
    + destruct (ascii_dec gap c) as [<-|_];
        [rewrite gap_not_valid in Hc; discriminate|].
      destruct (Ascii.eqb_spec a c) as [->|_]; [congruence|lia].
  - destruct (ascii_dec gap c) as [<-|_];
      [rewrite gap_not_valid in Hc; discriminate|lia].
Qed.

Lemma count_normalized_gap (raw : list Frame.cell) :
  count (map normalize raw) gap = length (filter counts_as_gap raw).
Proof.
  induction raw as [|x raw IH]; [reflexivity|].
  cbn [map filter]. rewrite count_cons, IH.
  destruct x as [a|]; cbn [normalize counts_as_gap].
  - destruct (is_valid a) eqn:Ea; cbn [negb].
    + destruct (ascii_dec a gap) as [->|_];
        [rewrite gap_not_valid in Ea; discriminate|lia].
    + destruct (ascii_dec gap gap); [cbn [length]; lia|congruence].
  - destruct (ascii_dec gap gap); [cbn [length]; lia|congruence].
Qed.

(** C1.  Symbols outside the 20-letter alphabet become the gap marker
    before counting, and the 20 letters are kept; the score of a column
    is the count of its most frequent normalized symbol (the gap marker
    included) over the number of sequences, where a letter is counted
    once per sequence that carries it and the gap marker once per
    sequence that has a non-canonical symbol or none at that column; so a
    column with only non-canonical symbols scores 1, and a column that is
    more than 95% gaps after normalization is in the highly-conserved
    list. *)
Theorem C1_gap_counts_towards_score (alignment : Alignment) (j : nat)
    (Hj : j < alignment_width alignment) :
  let col := normalized_column alignment j in
  let n := length alignment in
  let scores := calculate_conservation_scores alignment in
  (forall c, ~ In c valid_amino_acids -> normalize (Some c) = gap)
  /\ Frame.column gap j (normalized_frame alignment) = col
  /\ (exists s, In s col
        /\ (forall t, count col t <= count col s)
        /\ nth_error scores j
           = Some (Qred (Z.of_nat (count col s) # Pos.of_nat n)))
  /\ ((forall s c, In s alignment ->
         nth_error (list_ascii_of_string s) j = Some c ->
         ~ In c valid_amino_acids) ->
      nth_error scores j = Some 1%Q)
  /\ (95 * n < 100 * count col gap ->
      exists score, nth_error scores j = Some score
                    /\ In ((Z.of_nat j + 1)%Z, score)
                          (highly_conserved scores))
  /\ (forall c, In c valid_amino_acids -> normalize (Some c) = c)
  /\ normalize None = gap
  /\ col = map normalize (raw_column alignment j)
  /\ (forall c, In c valid_amino_acids ->
        count col c
        = length (filter (carries c) (raw_column alignment j)))
  /\ count col gap
     = length (filter counts_as_gap (raw_column alignment j)).
Proof.
  intros col n scores.
  pose proof (width_positive_nonempty _ _ Hj) as Hn.
  assert (Hcol : col <> []).
  { subst col. unfold normalized_column.
    destruct alignment; [cbn in Hn; lia|discriminate]. }
  assert (Hlen : length col = n)
    by (subst col n; unfold normalized_column; apply length_map).
  pose proof (score_at alignment j Hj) as Hscore. fold col n scores in Hscore.
  destruct (max_count_attained col Hcol) as (m & Hm & Hmc & Hmax).
  split; [exact normalize_not_valid|].
  split; [apply column_normalized|].
  split; [|split; [|split]].
  - exists m. split; [exact Hm|]. split; [exact Hmax|].
    rewrite Hscore, <- Hmc. reflexivity.
  - intros Hnon. rewrite Hscore. f_equal.
    rewrite (max_count_constant col gap Hcol).
    + rewrite Hlen. now apply frequency_all.
    + subst col. unfold normalized_column. intros x Hx.
      apply in_map_iff in Hx as (s & <- & Hs).
      destruct (nth_error (list_ascii_of_string s) j) as [c|] eqn:E;
        [|reflexivity].
      apply normalize_not_valid. now apply (Hnon s c).
  - intros Hgap. eexists. split; [exact Hscore|].
    apply in_highly_conserved. exists j.
    split; [reflexivity|]. split; [exact Hscore|].
    apply frequency_above_threshold; [exact Hn|].
    specialize (Hmax gap). fold n. lia.
  - split; [exact normalize_valid|]. split; [reflexivity|].
    split; [apply normalized_column_of_raw|].
    subst col. rewrite normalized_column_of_raw.
    split; [intros c Hc; now apply count_normalized_valid|].
    apply count_normalized_gap.
Qed.

Lemma C1_witness :
  1 < alignment_width ["A-"; "CX"; "G"]%string
  /\ nth_error (calculate_conservation_scores ["A-"; "CX"; "G"]%string) 1
     = Some 1%Q
  /\ normalize (Some "A"%char) = "A"%char
  /\ count (normalized_column ["AD"; "CX"; "A"]%string 0) "A"%char = 2
  /\ nth_error (calculate_conservation_scores ["AD"; "CX"; "A"]%string) 0
     = Some (2 # 3)%Q.
Proof.
  split; [vm_compute; lia|].
  assert (H : 1 < alignment_width ["A-"; "CX"; "G"]%string)
    by (vm_compute; lia).
  assert (H0 : 0 < alignment_width ["AD"; "CX"; "A"]%string)
    by (vm_compute; lia).
  assert (HA : In "A"%char valid_amino_acids) by (now left).
  pose proof (C1_gap_counts_towards_score ["A-"; "CX"; "G"]%string 1 H)
    as (_ & _ & _ & Hall & _ & Hkeep & _).
  pose proof (C1_gap_counts_towards_score ["AD"; "CX"; "A"]%string 0 H0)
    as (_ & _ & _ & _ & _ & _ & _ & _ & Hcount & _).
  split; [|split; [|split]].
  - apply Hall.
    intros s c [<-|[<-|[<-|[]]]] E; vm_compute in E; try discriminate;
      injection E as <-; vm_compute; intuition discriminate.
  - exact (Hkeep "A"%char HA).
  - rewrite (Hcount "A"%char HA). reflexivity.
  - reflexivity.
Defined.

(** C2 (as amended).  When the symbols of a column are pairwise distinct
    after normalization, the score of the column is 1/n, for n the number
    of sequences. *)
Theorem C2_distinct_normalized_symbols (alignment : Alignment) (j : nat)
    (Hj : j < alignment_width alignment)
    (Hdistinct : NoDup (normalized_column alignment j)) :
  nth_error (calculate_conservation_scores alignment) j
  = Some (1 # Pos.of_nat (length alignment))%Q.
Proof.
  pose proof (width_positive_nonempty _ _ Hj) as Hn.
  rewrite (score_at alignment j Hj), max_count_NoDup.
  - now rewrite frequency_one.
  - unfold normalized_column. destruct alignment; [cbn in Hn; lia|discriminate].
  - exact Hdistinct.
Qed.

Lemma C2_witness :
  0 < alignment_width ["A"; "C"; "-"]%string
  /\ NoDup (normalized_column ["A"; "C"; "-"]%string 0)
  /\ nth_error (calculate_conservation_scores ["A"; "C"; "-"]%string) 0
     = Some (1 # 3)%Q.
Proof.
  assert (Hj : 0 < alignment_width ["A"; "C"; "-"]%string)
    by (vm_compute; lia).
  assert (Hd : NoDup (normalized_column ["A"; "C"; "-"]%string 0)).
  { vm_compute. repeat constructor; cbn; intuition discriminate. }
  split; [exact Hj|]. split; [exact Hd|].
  exact (C2_distinct_normalized_symbols ["A"; "C"; "-"]%string 0 Hj Hd).
Defined.

(** C2 as stated fails: two sequences that carry the distinct symbols
    [X] and [-] at a column both count as a gap there, and the column
    scores 1, not 1/2. *)
Lemma C2_counterexample :
  0 < alignment_width ["X"; "-"]%string
  /\ raw_column ["X"; "-"]%string 0 = [Some "X"%char; Some "-"%char]
  /\ NoDup (raw_column ["X"; "-"]%string 0)
  /\ nth_error (calculate_conservation_scores ["X"; "-"]%string) 0
     = Some 1%Q
  /\ ~ (1 == 1 # Pos.of_nat (length ["X"; "-"]%string))%Q.
Proof.
  split; [vm_compute; lia|]. split; [reflexivity|]. split.
  - cbn. repeat constructor; cbn; intuition discriminate.
  - split; [reflexivity|]. vm_compute. discriminate.
Qed.

(** C3.  In a non-empty alignment, a column at which every sequence
    carries the same symbol scores 1. *)
Theorem C3_identical_column (alignment : Alignment) (j : nat) (c : ascii)
    (Hne : alignment <> [])
    (Hsame : forall s, In s alignment ->
               nth_error (list_ascii_of_string s) j = Some c) :
  nth_error (calculate_conservation_scores alignment) j = Some 1%Q.
Proof.
  destruct alignment as [|s0 rest]; [congruence|].
  assert (Hj : j < alignment_width (s0 :: rest)).
  { pose proof (Hsame s0 (or_introl eq_refl)) as H0.
    assert (Hlt : j < length (list_ascii_of_string s0))
      by (apply nth_error_Some; congruence).
    pose proof (width_ge (map list_ascii_of_string (s0 :: rest))
                         (list_ascii_of_string s0) (or_introl eq_refl)).
    unfold alignment_width. lia. }
  rewrite (score_at _ j Hj). f_equal.
  rewrite (max_count_constant _ (normalize (Some c))).
  - unfold normalized_column. rewrite length_map.
    apply frequency_all. cbn. lia.
  - discriminate.
  - unfold normalized_column. intros x Hx.
    apply in_map_iff in Hx as (s & <- & Hs). now rewrite (Hsame s Hs).
Qed.

Lemma C3_witness :
  nth_error (calculate_conservation_scores ["AK"; "CK"]%string) 1
  = Some 1%Q.
Proof.
  apply (C3_identical_column ["AK"; "CK"]%string 1 "K"%char).
  - discriminate.
  - intros s [<-|[<-|[]]]; reflexivity.
Defined.

(** C4.  The end-to-end scenario: three copies of [ACDEF]. *)
Theorem C4_three_identical_sequences :
  let alignment := ["ACDEF"; "ACDEF"; "ACDEF"]%string in
  calculate_conservation_scores alignment = [1; 1; 1; 1; 1]%Q
  /\ highly_conserved (calculate_conservation_scores alignment)
     = [(1, 1%Q); (2, 1%Q); (3, 1%Q); (4, 1%Q); (5, 1%Q)]%Z
  /\ analyze_key_residues alignment [285; 417; 447]%Z = inr []
  /\ Forall (fun pos => (Z.of_nat 5 < pos)%Z) [285; 417; 447]%Z.
Proof.
  cbv zeta. split; [reflexivity|]. split; [reflexivity|].
  split; [reflexivity|]. repeat constructor.
Qed.

(** C5.  For a non-empty alignment whose sequences all have the same
    length, the profile has that length. *)
Theorem C5_profile_length (alignment : Alignment) (width : nat)
    (Hne : alignment <> [])
    (Hequal : forall s, In s alignment -> String.length s = width) :
  length (calculate_conservation_scores alignment) = width.
Proof.
  rewrite length_profile. unfold alignment_width, Frame.width.
  apply Nat.le_antisymm.
  - apply list_max_le. apply Forall_forall. intros k Hk.
    rewrite map_map in Hk. apply in_map_iff in Hk as (s & <- & Hs).
    rewrite length_list_ascii_of_string, (Hequal s Hs). lia.
  - destruct alignment as [|s0 rest]; [congruence|].
    rewrite <- (Hequal s0 (or_introl eq_refl)).
    rewrite <- length_list_ascii_of_string.
    apply (width_ge (map list_ascii_of_string (s0 :: rest))).
    now left.
Qed.

Lemma C5_witness :
  length (calculate_conservation_scores ["MKV-"; "MRVA"]%string) = 4.
Proof.
  apply (C5_profile_length ["MKV-"; "MRVA"]%string 4).
  - discriminate.
  - intros s [<-|[<-|[]]]; reflexivity.
Defined.

(** ** Analyzer *)

Lemma series_getitem_in_range (scores : list Q) (k : Z) :
  (0 <= k < Z.of_nat (length scores))%Z ->
  series_getitem scores k = inr (nth (Z.to_nat k) scores 0%Q).
Proof.
  intros [H0 H1]. unfold series_getitem.
  destruct (Z.leb_spec 0 k); [|lia]. destruct (Z.ltb_spec k (Z.of_nat (length scores))); [|lia].
  reflexivity.
Qed.

Lemma series_getitem_negative (scores : list Q) (k : Z) :
  (k < 0)%Z -> series_getitem scores k = inl (KeyError k).
Proof.
  intros H. unfold series_getitem.
  destruct (Z.leb_spec 0 k); [lia|]. reflexivity.
Qed.

Lemma key_residue_rows_positive (scores : list Q) (positions : list Z) :
  Forall (fun pos => (1 <= pos)%Z) positions ->
  forall results,
    key_residue_rows scores positions results
    = inr (results
           ++ map (row_at scores) (filter (in_bounds scores) positions)).
Proof.
  induction 1 as [|pos rest Hpos Hrest IH]; intros results.
  - cbn. now rewrite app_nil_r.
  - cbn [key_residue_rows filter]. unfold in_bounds at 1.
    destruct (Z.leb_spec pos (Z.of_nat (length scores))) as [Hle|Hgt].
    + rewrite series_getitem_in_range by lia.
      rewrite IH. cbn [map]. now rewrite <- app_assoc.
    + apply IH.
Qed.

Lemma key_residue_rows_below_one (scores : list Q) (positions : list Z) :
  Exists (fun pos => (pos < 1)%Z) positions ->
  forall results,
    exists pos, In pos positions /\ (pos < 1)%Z
                /\ key_residue_rows scores positions results
                   = inl (KeyError (pos - 1)).
Proof.
  induction positions as [|p rest IH]; intros Hex results.
  - inversion Hex.
  - cbn [key_residue_rows].
    destruct (Z.ltb_spec p 1) as [Hlt|Hge].
    + exists p. split; [now left|]. split; [exact Hlt|].
      destruct (Z.leb_spec p (Z.of_nat (length scores))); [|lia].
      now rewrite series_getitem_negative by lia.
    + assert (Hex' : Exists (fun pos => (pos < 1)%Z) rest)
        by (inversion Hex; subst; [lia|assumption]).
      destruct (Z.leb_spec p (Z.of_nat (length scores))).
      * rewrite series_getitem_in_range by lia.
        destruct (IH Hex' (results ++ [(p, nth (Z.to_nat (p - 1)) scores 0%Q)]))
          as (pos & Hin & Hlt & E).
        exists pos. split; [now right|]. split; assumption.
      * destruct (IH Hex' results) as (pos & Hin & Hlt & E).
        exists pos. split; [now right|]. split; assumption.
Qed.

(** C6 (as amended).  For positions that are all at least 1, the
    key-residue table has one row per position that is at most the
    profile length, in input order, each with the score at that 1-indexed
    position; larger positions are skipped and nothing is raised.  On a
    profile of length 400, positions 285, 417, 447 give the single row
    for 285. *)
Theorem C6_key_residue_rows (scores : list Q) (positions : list Z)
    (Hpositive : Forall (fun pos => (1 <= pos)%Z) positions) :
  let kept := filter (fun pos => (pos <=? Z.of_nat (length scores))%Z)
                     positions in
  key_residue_rows scores positions []
  = inr (map (fun pos => (pos, nth (Z.to_nat (pos - 1)) scores 0%Q)) kept)
  /\ (forall pos, In pos kept ->
        nth_error scores (Z.to_nat (pos - 1))
        = Some (nth (Z.to_nat (pos - 1)) scores 0%Q))
  /\ (forall alignment,
        calculate_conservation_scores alignment = scores ->
        analyze_key_residues alignment positions
        = inr (map (fun pos => (pos, nth (Z.to_nat (pos - 1)) scores 0%Q))
                   kept))
  /\ (length scores = 400 ->
      key_residue_rows scores [285; 417; 447]%Z []
      = inr [(285%Z, nth 284 scores 0%Q)]).
Proof.
  intros kept.
  assert (Hrows : key_residue_rows scores positions []
                  = inr (map (fun pos =>
                                (pos, nth (Z.to_nat (pos - 1)) scores 0%Q))
                             kept))
    by (now rewrite key_residue_rows_positive).
  split; [exact Hrows|]. split; [|split].
  - intros pos Hin. subst kept. apply filter_In in Hin as [Hin Hle].
    rewrite Forall_forall in Hpositive. specialize (Hpositive pos Hin).
    apply Z.leb_le in Hle. apply nth_error_nth'. lia.
  - intros alignment <-. exact Hrows.
  - intros Hlen. rewrite key_residue_rows_positive
      by (repeat constructor; lia).
    unfold in_bounds. cbn [filter]. rewrite Hlen. reflexivity.
Qed.

Lemma C6_witness :
  Forall (fun pos => (1 <= pos)%Z) [2; 9; 1]%Z
  /\ key_residue_rows [1; 1 # 2; 1 # 3]%Q [2; 9; 1]%Z []
     = inr [(2%Z, (1 # 2)%Q); (1%Z, 1%Q)].
Proof.
  assert (H : Forall (fun pos => (1 <= pos)%Z) [2; 9; 1]%Z)
    by (repeat constructor; lia).
  split; [exact H|].
  exact (proj1 (C6_key_residue_rows [1; 1 # 2; 1 # 3]%Q [2; 9; 1]%Z H)).
Defined.

(** C6 as stated fails: position 0 is at most the profile length 5, yet
    no row is produced for it; the lookup of label -1 raises. *)
Lemma C6_counterexample :
  length (calculate_conservation_scores ["ACDEF"]%string) = 5
  /\ (0 <= Z.of_nat 5)%Z
  /\ analyze_key_residues ["ACDEF"]%string [0]%Z = inl (KeyError (-1)).
Proof.
  split; [reflexivity|]. split; [lia|reflexivity].
Qed.

(** C7.  The highly-conserved extraction is a function of the profile
    (run twice it gives the same list), and its result is exactly the
    pairs of a 1-indexed position and its score for the scores above
    0.95: all of them, each once, by ascending position. *)
Theorem C7_highly_conserved_extraction (scores : list Q) :
  (forall scores', scores' = scores ->
     highly_conserved scores' = highly_conserved scores)
  /\ (forall p s,
        In (p, s) (highly_conserved scores)
        <-> (1 <= p <= Z.of_nat (length scores))%Z
            /\ nth_error scores (Z.to_nat (p - 1)) = Some s
            /\ (95 # 100 < s)%Q)
  /\ StronglySorted Z.lt (map fst (highly_conserved scores))
  /\ map snd (highly_conserved scores) = filter above_threshold scores
  /\ length (highly_conserved scores)
     = length (filter above_threshold scores).
Proof.
  pose proof (highly_conserved_from scores 0) as (Hsorted & _ & Hsnd).
  fold (enumerate scores) in Hsorted, Hsnd.
  fold (highly_conserved scores) in Hsorted, Hsnd.
  split; [now intros ? ->|]. split; [|split; [exact Hsorted|split]].
  - intros p s. rewrite in_highly_conserved. split.
    + intros (i & -> & Hnth & Hab).
      assert (Hi : i < length scores) by (apply nth_error_Some; congruence).
      split; [lia|]. replace (Z.to_nat (Z.of_nat i + 1 - 1)) with i by lia.
      split; [exact Hnth|now apply above_threshold_Qlt].
    + intros (Hp & Hnth & Hlt). exists (Z.to_nat (p - 1)).
      split; [lia|]. split; [exact Hnth|now apply above_threshold_Qlt].
  - exact Hsnd.
  - now rewrite <- Hsnd, length_map.
Qed.

Lemma C7_witness :
  In (3%Z, (96 # 100)%Q)
     (highly_conserved [1; 95 # 100; 96 # 100; 1 # 2]%Q)
  /\ ~ In (2%Z, (95 # 100)%Q)
         (highly_conserved [1; 95 # 100; 96 # 100; 1 # 2]%Q).
Proof.
  pose proof (proj1 (proj2 (C7_highly_conserved_extraction
                              [1; 95 # 100; 96 # 100; 1 # 2]%Q)))
    as Hiff.
  split.
  - apply (proj2 (Hiff 3%Z (96 # 100)%Q)).
    split; [cbn; lia|]. split; [reflexivity|]. reflexivity.
  - intros Hin. apply (proj1 (Hiff 2%Z (95 # 100)%Q)) in Hin.
    destruct Hin as (_ & _ & Hlt). discriminate Hlt.
Defined.

(** C10.  The guard of [analyze_key_residues] only compares a position
    with the profile length.  A position below 1 passes it, whatever the
    profile, and the score is then looked up at the negative label
    [pos - 1]: no row is skipped, the lookup raises. *)
Theorem C10_no_lower_bound (scores : list Q) (positions : list Z)
    (Hbelow : Exists (fun pos => (pos < 1)%Z) positions) :
  (forall pos, (pos < 1)%Z ->
     (pos <=? Z.of_nat (length scores))%Z = true)
  /\ exists pos,
       In pos positions /\ (pos - 1 < 0)%Z
       /\ key_residue_rows scores positions [] = inl (KeyError (pos - 1))
       /\ forall alignment,
            calculate_conservation_scores alignment = scores ->
            analyze_key_residues alignment positions
            = inl (KeyError (pos - 1)).
Proof.
  split.
  - intros pos Hpos. apply Z.leb_le. lia.
  - destruct (key_residue_rows_below_one scores positions Hbelow [])
      as (pos & Hin & Hlt & E).
    exists pos. split; [exact Hin|]. split; [lia|]. split; [exact E|].
    intros alignment <-. exact E.
Qed.

Lemma C10_witness :
  Exists (fun pos => (pos < 1)%Z) [2; 0]%Z
  /\ exists pos,
       In pos [2; 0]%Z /\ (pos - 1 < 0)%Z
       /\ analyze_key_residues ["ACD"; "ACE"]%string [2; 0]%Z
          = inl (KeyError (pos - 1)).
Proof.
  assert (H : Exists (fun pos => (pos < 1)%Z) [2; 0]%Z)
    by (right; left; lia).
  split; [exact H|].
  destruct (proj2 (C10_no_lower_bound
                     (calculate_conservation_scores ["ACD"; "ACE"]%string)
                     [2; 0]%Z H))
    as (pos & Hin & Hneg & _ & Hal).
  exists pos. split; [exact Hin|]. split; [exact Hneg|].
  now apply Hal.
Defined.

(** ** The monad: framing and trace invariants *)

Section Framing.

Lemma framed_ret {A : Type} (a : A) : framed (ret a).
Proof. intros l t. cbn. now rewrite !app_nil_r. Qed.

Lemma framed_raise {A : Type} (e : Exception) : framed (@raise (list VersionResult) A e).
Proof. intros l t. cbn. now rewrite !app_nil_r. Qed.

Lemma framed_lift {A : Type} (r : Exception + A) : framed (lift r).
Proof. destruct r; [apply framed_raise|apply framed_ret]. Qed.

Lemma framed_emit (ev : Event) : framed (emit ev).
Proof. intros l t. cbn. now rewrite app_nil_r. Qed.

Lemma framed_guarded (err : option Exception) (ev : Event) :
  framed (guarded err ev).
Proof. destruct err; [apply framed_raise|apply framed_emit]. Qed.

Lemma framed_append (entry : VersionResult) :
  framed (modify_local (fun all_results => all_results ++ [entry])).
Proof. intros l t. cbn. now rewrite app_nil_r. Qed.

Lemma framed_bind {A B : Type} (m : M (list VersionResult) A) (f : A -> M (list VersionResult) B) :
  framed m -> (forall a, framed (f a)) -> framed (bind m f).
Proof.
  intros Hm Hf l t. unfold bind.
  rewrite (Hm l t). destruct (m [] []) as [[[e|a] l1] t1]; cbn [fst snd].
  - reflexivity.
  - rewrite (Hf a (l ++ l1) (t ++ t1)), (Hf a l1 t1).
    cbn [fst snd]. now rewrite !app_assoc.
Qed.

Lemma framed_try_except {A : Type} (m : M (list VersionResult) A)
    (h : Exception -> M (list VersionResult) A) :
  framed m -> (forall e, framed (h e)) -> framed (try_except m h).
Proof.
  intros Hm Hh l t. unfold try_except.
  rewrite (Hm l t). destruct (m [] []) as [[[e|a] l1] t1]; cbn [fst snd].
  - rewrite (Hh e (l ++ l1) (t ++ t1)), (Hh e l1 t1).
    cbn [fst snd]. now rewrite !app_assoc.
  - reflexivity.
Qed.

End Framing.

Create HintDb framing.
#[local] Hint Resolve framed_ret framed_raise framed_lift framed_emit
  framed_guarded framed_append : framing.

Ltac framing :=
  repeat first
    [ apply framed_bind; [|intros ?]
    | apply framed_try_except; [|intros ?]
    | solve [auto with framing] ].

Section Invariants.

Context {L : Type} (P : Event -> Prop).

Lemma keeps_ret {A : Type} (a : A) : keeps P (@ret L A a).
Proof. intros l t H. exact H. Qed.

Lemma keeps_raise {A : Type} (e : Exception) : keeps P (@raise L A e).
Proof. intros l t H. exact H. Qed.

Lemma keeps_lift {A : Type} (r : Exception + A) : keeps P (@lift L A r).
Proof. destruct r; [apply keeps_raise|apply keeps_ret]. Qed.

Lemma keeps_emit (ev : Event) : P ev -> keeps P (@emit L ev).
Proof.
  intros Hev l t H. cbn. apply Forall_app. split; [exact H|].
  now constructor.
Qed.

Lemma keeps_guarded (err : option Exception) (ev : Event) :
  P ev -> keeps P (@guarded L err ev).
Proof. intros Hev. destruct err; [apply keeps_raise|now apply keeps_emit]. Qed.

Lemma keeps_get_local : keeps P (@get_local L).
Proof. intros l t H. exact H. Qed.

Lemma keeps_modify_local (f : L -> L) : keeps P (modify_local f).
Proof. intros l t H. exact H. Qed.

Lemma keeps_bind {A B : Type} (m : M L A) (f : A -> M L B) :
  keeps P m -> (forall a, keeps P (f a)) -> keeps P (bind m f).
Proof.
  intros Hm Hf l t H. unfold bind. specialize (Hm l t H).
  destruct (m l t) as [[[e|a] l1] t1]; cbn [snd] in *.
  - exact Hm.
  - now apply Hf.
Qed.

Lemma keeps_try_except {A : Type} (m : M L A) (h : Exception -> M L A) :
  keeps P m -> (forall e, keeps P (h e)) -> keeps P (try_except m h).
Proof.
  intros Hm Hh l t H. unfold try_except. specialize (Hm l t H).
  destruct (m l t) as [[[e|a] l1] t1]; cbn [snd] in *.
  - now apply Hh.
  - exact Hm.
Qed.

Lemma keeps_for_each {A : Type} (xs : list A) (body : A -> M L unit) :
  (forall x, In x xs -> keeps P (body x)) -> keeps P (for_each xs body).
Proof.
  induction xs as [|x xs IH]; intros Hbody; cbn [for_each].
  - apply keeps_ret.
  - apply keeps_bind.
    + apply Hbody. now left.
    + intros _. apply IH. intros y Hy. apply Hbody. now right.
Qed.

Lemma keeps_call {L' A : Type} (l0 : L') (body : M L' A) :
  @keeps L' A P body -> keeps P (@call L L' A l0 body).
Proof.
  intros Hb l t H. unfold call. specialize (Hb l0 t H).
  destruct (body l0 t) as [[r l1] t1]. exact Hb.
Qed.

End Invariants.

Section LocalsKept.

Context {L : Type}.

Lemma locals_kept_ret {A : Type} (a : A) : locals_kept (@ret L A a).
Proof. intros l t. reflexivity. Qed.

Lemma locals_kept_raise {A : Type} (e : Exception) :
  locals_kept (@raise L A e).
Proof. intros l t. reflexivity. Qed.

Lemma locals_kept_lift {A : Type} (r : Exception + A) :
  locals_kept (@lift L A r).
Proof. destruct r; intros l t; reflexivity. Qed.

Lemma locals_kept_guarded (err : option Exception) (ev : Event) :
  locals_kept (@guarded L err ev).
Proof. destruct err; intros l t; reflexivity. Qed.

Lemma locals_kept_bind {A B : Type} (m : M L A) (f : A -> M L B) :
  locals_kept m -> (forall a, locals_kept (f a)) -> locals_kept (bind m f).
Proof.
  intros Hm Hf l t. unfold bind. specialize (Hm l t).
  destruct (m l t) as [[[e|a] l1] t1]; cbn [fst snd] in *.
  - exact Hm.
  - now rewrite Hf.
Qed.

End LocalsKept.

(** ** Folder processing *)

Section FolderFacts.

Variable w : World.
Variables version_name output_dir : string.

Lemma analyze_msa_file_framed (msa_file : string) :
  framed (analyze_msa_file w msa_file output_dir).
Proof. unfold analyze_msa_file. framing. Qed.

Lemma analyze_entry_framed (msa_file : string) :
  framed (analyze_entry w version_name output_dir msa_file).
Proof.
  unfold analyze_entry, analyze_msa_file. framing.
Qed.

Lemma analyze_entry_locals {L : Type} (msa_file : string) :
  locals_kept (@analyze_entry w L version_name output_dir msa_file).
Proof.
  unfold analyze_entry, analyze_msa_file.
  repeat first
    [ apply locals_kept_bind; [|intros ?]
    | apply locals_kept_lift | apply locals_kept_guarded
    | apply locals_kept_ret ].
Qed.

Lemma process_file_framed (msa_file : string) :
  framed (process_file w version_name output_dir msa_file).
Proof.
  unfold process_file, try_body, write_report, analyze_entry,
    analyze_msa_file. framing.
Qed.

(** One round of the loop from empty locals and an empty trace. *)
Lemma process_file_fresh (msa_file : string) :
  exists evs,
    process_file w version_name output_dir msa_file [] []
    = (inr tt,
       entries_of_outcome
         (analysis_outcome w version_name output_dir msa_file),
       Print (analyzing_message msa_file) :: evs)
    /\ forall e,
         try_failure w version_name output_dir msa_file = Some e ->
         In (Print (error_message msa_file e)) evs.
Proof.
  unfold try_failure, analysis_outcome.
  pose proof (analyze_entry_locals msa_file (@nil VersionResult) [])
    as Hloc.
  unfold process_file, try_body, write_report, bind, try_except.
  cbn [emit app].
  rewrite (analyze_entry_framed msa_file [] [Print _]).
  destruct (analyze_entry w version_name output_dir msa_file [] [])
    as [[[e|entry] l1] t1]; cbn [fst snd] in *; subst l1.
  - eexists. split; [reflexivity|].
    intros e' [= <-]. apply in_or_app. right. now left.
  - cbn [modify_local app].
    destruct (open_error w (report_path output_dir msa_file)) as [e|];
      cbn [guarded raise emit].
    + eexists. split; [reflexivity|].
      intros e' [= <-]. apply in_or_app. right. now left.
    + eexists. split; [reflexivity|]. discriminate.
Qed.

Lemma process_file_run (msa_file : string) (l : list VersionResult)
    (t : list Event) :
  exists evs,
    process_file w version_name output_dir msa_file l t
    = (inr tt,
       l ++ entries_of_outcome
              (analysis_outcome w version_name output_dir msa_file),
       t ++ Print (analyzing_message msa_file) :: evs)
    /\ forall e,
         try_failure w version_name output_dir msa_file = Some e ->
         In (Print (error_message msa_file e)) evs.
Proof.
  destruct (process_file_fresh msa_file) as (evs & E & Hlog).
  exists evs. split; [|exact Hlog].
  rewrite (process_file_framed msa_file l t), E. reflexivity.
Qed.

(** The loop over the files never raises, attempts every file, logs
    every failure, and appends the entries of the files whose analysis
    went through. *)
Lemma process_files_run (files : list string) :
  forall (l : list VersionResult) (t : list Event),
  exists t',
    for_each files (process_file w version_name output_dir) l t
    = (inr tt,
       l ++ flat_map
              (fun f => entries_of_outcome
                          (analysis_outcome w version_name output_dir f))
              files,
       t ++ t')
    /\ (forall f, In f files -> In (Print (analyzing_message f)) t')
    /\ (forall f e,
          In f files ->
          try_failure w version_name output_dir f = Some e ->
          In (Print (error_message f e)) t').
Proof.
  induction files as [|f files IH]; intros l t.
  - exists []. cbn. rewrite !app_nil_r. repeat split; intros; contradiction.
  - destruct (process_file_run f l t) as (evs & E & Hlog).
    cbn [for_each]. unfold bind at 1. rewrite E.
    destruct (IH (l ++ entries_of_outcome
                         (analysis_outcome w version_name output_dir f))
                 (t ++ Print (analyzing_message f) :: evs))
      as (t2 & E2 & Hatt & Hlog2).
    exists ((Print (analyzing_message f) :: evs) ++ t2).
    rewrite E2. cbn [flat_map]. rewrite !app_assoc. split; [reflexivity|].
    split.
    + intros g [<-|Hg].
      * apply in_or_app. left. now left.
      * apply in_or_app. right. now apply Hatt.
    + intros g e [<-|Hg] Hfail.
      * apply in_or_app. left. right. now apply Hlog.
      * apply in_or_app. right. now apply Hlog2.
Qed.

End FolderFacts.

Lemma in_insert_sorted (x y : string) (l : list string) :
  In y (insert_sorted x l) <-> y = x \/ In y l.
Proof.
  induction l as [|z l IH]; cbn.
  - intuition.
  - destruct (String.leb x z); cbn; [intuition|]. rewrite IH. intuition.
Qed.

Lemma in_sorted (y : string) (l : list string) :
  In y (sorted l) <-> In y l.
Proof.
  induction l as [|x l IH]; cbn; [tauto|].
  rewrite in_insert_sorted, IH. intuition.
Qed.

(** C8 (as amended).  A folder whose output directory can be created is
    processed to the end whatever happens on single files: every file is
    attempted, every exception that leaves the [try] block of a file is
    caught and logged, and the results hold exactly the entries of the
    files whose analysis (reading, scoring, plotting, key residues) went
    through; a file whose analysis raised contributes none. *)
Theorem C8_failure_isolation (w : World) (folder_path : string)
    (L : Type) (l : L) (t : list Event)
    (Hdir : makedirs_error w
              (Path.join "results" (Path.basename folder_path)) = None) :
  let version_name := Path.basename folder_path in
  let output_dir := Path.join "results" version_name in
  let files := sorted (glob w (Path.join folder_path "*.afa")) in
  exists results t',
    process_folder w folder_path l t = (inr results, l, t ++ t')
    /\ (forall f, In f files -> In (Print (analyzing_message f)) t')
    /\ (forall f e,
          In f files ->
          try_failure w version_name output_dir f = Some e ->
          In (Print (error_message f e)) t')
    /\ results
       = flat_map
           (fun f => entries_of_outcome
                       (analysis_outcome w version_name output_dir f))
           files
    /\ (forall entry,
          In entry results
          <-> exists f, In f files
                        /\ analysis_outcome w version_name output_dir f
                           = inr entry).
Proof.
  intros version_name output_dir files.
  unfold process_folder, call. fold version_name output_dir files.
  unfold bind at 1. unfold output_dir at 1, version_name at 1.
  rewrite Hdir. fold version_name output_dir. cbn [guarded emit].
  unfold bind at 1. cbn [emit]. unfold bind at 1. cbn [modify_local].
  unfold bind at 1.
  match goal with
  | |- context [for_each files _ [] ?t0] =>
      destruct (process_files_run w version_name output_dir files [] t0)
        as (t2 & E & Hatt & Hlog); rewrite E
  end.
  cbn [get_local app].
  eexists. eexists. split.
  { rewrite <- !app_assoc. reflexivity. }
  split.
  { intros f Hf. apply in_or_app. right. apply in_or_app. right.
    now apply Hatt. }
  split.
  { intros f e Hf Hfail. apply in_or_app. right. apply in_or_app. right.
    now apply Hlog. }
  split; [reflexivity|].
  intros entry. rewrite in_flat_map. split.
  - intros (f & Hf & Hin). exists f. split; [exact Hf|].
    destruct (analysis_outcome w version_name output_dir f) as [e|en];
      cbn in Hin; [contradiction|]. destruct Hin as [<-|[]]. reflexivity.
  - intros (f & Hf & E'). exists f. split; [exact Hf|].
    rewrite E'. now left.
Qed.

Lemma C8_witness :
  makedirs_error one_bad_file_world
    (Path.join "results" (Path.basename "v1")) = None
  /\ exists results t',
       process_folder one_bad_file_world "v1" tt [] = (inr results, tt, t')
       /\ In (Print (error_message "v1/bad.afa"
                       (OtherError "No records found in handle"))) t'
       /\ In (Print (analyzing_message "v1/good.afa")) t'
       /\ map MSA_file results = ["good.afa"%string].
Proof.
  split; [reflexivity|].
  destruct (C8_failure_isolation one_bad_file_world "v1" unit tt []
              eq_refl)
    as (results & t' & E & Hatt & Hlog & Hres & _).
  exists results, t'. split; [exact E|]. split; [|split].
  - apply Hlog; [vm_compute; tauto|reflexivity].
  - apply Hatt. vm_compute. tauto.
  - rewrite Hres. reflexivity.
Defined.

(** C8 as stated fails for a failure raised after the entry was
    appended: when the per-file report cannot be opened, the exception is
    caught and logged as an error analyzing the file, and the entry of
    that file is in the results all the same. *)
Lemma C8_counterexample :
  try_failure unwritable_report_world "v1" "results/v1" "v1/a.afa"
  = Some (OtherError "Permission denied")
  /\ exists t',
       process_folder unwritable_report_world "v1" tt []
       = (inr [{| Version := "v1";
                  MSA_file := "a.afa";
                  Key_Residues := [];
                  Highly_Conserved :=
                    [(1, 1%Q); (2, 1%Q); (3, 1%Q); (4, 1%Q); (5, 1%Q)]%Z |}],
          tt, t')
       /\ In (Print "Error analyzing v1/a.afa: Permission denied") t'.
Proof.
  split; [reflexivity|]. eexists. split; [reflexivity|].
  cbn. tauto.
Qed.

(** ** The run *)

Lemma version_output_not_combined (version name : string) :
  In version versions ->
  Path.join (Path.join "results" (Path.basename version)) name
  <> "results/combined_analysis.tsv"%string.
Proof.
  intros Hv H.
  assert (Hcases :
    exists dir, Path.join "results" (Path.basename version) = dir
                /\ (dir = "results/v1" \/ dir = "results/v2"
                    \/ dir = "results/v3")%string).
  { destruct Hv as [<-|[<-|[<-|[]]]]; eexists; (split; [reflexivity|]);
      tauto. }
  destruct Hcases as (dir & E & Hdir). rewrite E in H. clear E.
  unfold Path.join in H.
  destruct (String.prefix "/" name) eqn:Hp.
  - subst name. discriminate Hp.
  - destruct Hdir as [-> | [-> | ->]]; cbn in H; discriminate H.
Qed.

Ltac keeping :=
  repeat first
    [ apply keeps_bind; [|intros ?]
    | apply keeps_try_except; [|intros ?]
    | apply keeps_lift | apply keeps_ret | apply keeps_get_local
    | apply keeps_modify_local
    | apply keeps_guarded | apply keeps_emit ].

Section RunFacts.

Variable w : World.

Lemma process_file_keeps (version msa_file : string) :
  In version versions ->
  keeps per_file_event
    (process_file w (Path.basename version)
       (Path.join "results" (Path.basename version)) msa_file).
Proof.
  intros Hv.
  unfold process_file, try_body, write_report, analyze_entry,
    analyze_msa_file.
  keeping; cbn [per_file_event]; try exact I;
    now apply version_output_not_combined.
Qed.

Lemma process_folder_keeps {L : Type} (version : string) :
  In version versions ->
  keeps per_file_event (@process_folder w L version).
Proof.
  intros Hv. unfold process_folder. apply keeps_call.
  keeping; cbn [per_file_event]; try exact I.
  apply keeps_for_each. intros f _. now apply process_file_keeps.
Qed.

Lemma process_version_keeps (version : string) :
  In version versions ->
  keeps per_file_event (process_version w version).
Proof.
  intros Hv. unfold process_version.
  destruct (path_exists w version).
  - keeping; cbn [per_file_event]; try exact I.
    now apply process_folder_keeps.
  - apply keeps_emit. exact I.
Qed.

End RunFacts.

Lemma per_file_events_leave_combined (t : list Event) :
  Forall per_file_event t ->
  never_written "results/combined_analysis.tsv" t
  /\ forall path rows, ~ In (ToCsv path rows) t.
Proof.
  intros H. rewrite Forall_forall in H. split.
  - intros ev Hev E. specialize (H ev Hev).
    destruct ev; cbn in *; try discriminate; injection E as ->;
      congruence.
  - intros path rows Hin. exact (H _ Hin).
Qed.

Lemma entries_of_failures (outcome : string -> Exception + VersionResult)
    (files : list string) :
  (forall f, In f files -> exists e, outcome f = inl e) ->
  flat_map (fun f => entries_of_outcome (outcome f)) files = [].
Proof.
  induction files as [|f files IH]; intros H; [reflexivity|].
  cbn [flat_map]. destruct (H f (or_introl eq_refl)) as (e & ->).
  cbn [entries_of_outcome app]. apply IH. intros g Hg. apply H. now right.
Qed.

Section Accumulation.

Variable w : World.

(** What [process_folder] returns when it returns. *)
Lemma process_folder_returns {L : Type} (folder_path : string) (l l' : L)
    (t t' : list Event) (results : list VersionResult) :
  process_folder w folder_path l t = (inr results, l', t') ->
  results
  = flat_map
      (fun f => entries_of_outcome
                  (analysis_outcome w (Path.basename folder_path)
                     (Path.join "results" (Path.basename folder_path)) f))
      (sorted (glob w (Path.join folder_path "*.afa"))).
Proof.
  unfold process_folder, call, bind.
  destruct (makedirs_error w
              (Path.join "results" (Path.basename folder_path)));
    cbn [guarded raise emit modify_local]; [discriminate|].
  match goal with
  | |- context [for_each ?files _ [] ?t0] =>
      destruct (process_files_run w (Path.basename folder_path)
                  (Path.join "results" (Path.basename folder_path))
                  files [] t0) as (t2 & E & _); rewrite E
  end.
  cbn [get_local app]. now intros [= <- _ _].
Qed.

Lemma process_folder_locals {L : Type} (folder_path : string) (l : L)
    (t : list Event) :
  snd (fst (@process_folder w L folder_path l t)) = l.
Proof.
  unfold process_folder, call.
  match goal with
  | |- snd (fst (match ?b with _ => _ end)) = _ =>
      destruct b as [[r l1] t1]
  end.
  reflexivity.
Qed.

Hypothesis no_analysis_succeeds :
  forall version f,
    In version versions -> path_exists w version = true ->
    In f (glob w (Path.join version "*.afa")) ->
    exists e,
      analysis_outcome w (Path.basename version)
        (Path.join "results" (Path.basename version)) f = inl e.

Lemma process_version_accumulates_nothing (version : string)
    (t : list Event) :
  In version versions ->
  snd (fst (process_version w version [] t)) = [].
Proof.
  intros Hv. unfold process_version.
  destruct (path_exists w version) eqn:Hex; [|reflexivity].
  unfold bind. cbn [emit].
  pose proof (process_folder_locals version (@nil VersionResult)
                (t ++ [Print (nl ++ "Processing " ++ version ++ "...")]))
    as Hloc.
  destruct (process_folder w version [] _) as [[[e|results] l1] t1] eqn:E;
    cbn [fst snd] in Hloc; subst l1; [reflexivity|].
  apply process_folder_returns in E. cbn [modify_local fst snd app].
  rewrite E. apply entries_of_failures.
  intros f Hf. apply (proj1 (in_sorted _ _)) in Hf.
  now apply no_analysis_succeeds.
Qed.

Lemma versions_accumulate_nothing (vs : list string) (t : list Event) :
  incl vs versions ->
  snd (fst (for_each vs (process_version w) [] t)) = [].
Proof.
  revert t. induction vs as [|v vs IH]; intros t Hincl; [reflexivity|].
  cbn [for_each]. unfold bind.
  pose proof (process_version_accumulates_nothing v t
                (Hincl v (or_introl eq_refl))) as Hv.
  destruct (process_version w v [] t) as [[[e|[]] l1] t1];
    cbn [fst snd] in Hv; subst l1; [reflexivity|].
  apply IH. intros x Hx. apply Hincl. now right.
Qed.

End Accumulation.

(** C9.  When a run ends with nothing accumulated in
    [all_version_results], no event of the run wrote the combined table:
    [to_csv] was never called and no file was created at
    [results/combined_analysis.tsv].  That is the case in particular
    when no file of any existing version folder got through its
    analysis. *)
Theorem C9_no_combined_file_without_results (w : World)
    (outcome : Exception + unit) (all_version_results : list VersionResult)
    (t : list Event)
    (Hrun : run_main w = (outcome, all_version_results, t)) :
  (all_version_results = [] ->
   never_written "results/combined_analysis.tsv" t
   /\ forall path rows, ~ In (ToCsv path rows) t)
  /\ ((forall version f,
         In version versions -> path_exists w version = true ->
         In f (glob w (Path.join version "*.afa")) ->
         exists e,
           analysis_outcome w (Path.basename version)
             (Path.join "results" (Path.basename version)) f = inl e) ->
      all_version_results = [])
  /\ combined_path = "results/combined_analysis.tsv"%string.
Proof.
  assert (Hloop : keeps per_file_event
            (bind (guarded (makedirs_error w "results")
                           (Makedirs "results"))
               (fun _ => bind (modify_local (fun _ => []))
                  (fun _ => for_each versions (process_version w))))).
  { keeping; try exact I; apply process_version_keeps; cbn; tauto. }
  specialize (Hloop (@nil VersionResult) [] (Forall_nil _)).
  unfold run_main, main in Hrun.
  unfold bind in Hrun, Hloop.
  split; [|split; [|reflexivity]].
  - intros Hnone. apply per_file_events_leave_combined.
    destruct (guarded (makedirs_error w "results") (Makedirs "results")
                      [] []) as [[[e|[]] l1] t1].
    + injection Hrun as <- <- <-. exact Hloop.
    + destruct (modify_local (fun _ => []) l1 t1) as [[[e|[]] l2] t2].
      * injection Hrun as <- <- <-. exact Hloop.
      * destruct (for_each versions (process_version w) l2 t2)
          as [[[e|[]] l3] t3]; cbn [snd] in Hloop.
        -- injection Hrun as <- <- <-. exact Hloop.
        -- cbn [get_local] in Hrun. destruct l3 as [|entry l3].
           ++ cbn [ret] in Hrun. injection Hrun as <- <- <-. exact Hloop.
           ++ exfalso.
              destruct (to_csv_error w combined_path) as [e|];
                cbn in Hrun; injection Hrun as _ Hl _; congruence.
  - intros Hfail. clear Hloop.
    destruct (makedirs_error w "results") as [e|];
      cbn [guarded raise emit modify_local app] in Hrun.
    + now injection Hrun as _ <- _.
    + pose proof (versions_accumulate_nothing w Hfail versions
                    [Makedirs "results"] (incl_refl _)) as Hacc.
      destruct (for_each versions (process_version w) []
                         [Makedirs "results"])
        as [[[e|[]] l3] t3]; cbn [fst snd] in Hacc; subst l3.
      * now injection Hrun as _ <- _.
      * cbn [get_local ret] in Hrun. now injection Hrun as _ <- _.
Qed.

Lemma C9_witness :
  run_main only_bad_file_world
  = (inr tt, [],
     [Makedirs "results";
      Print (nl ++ "Processing v1...");
      Makedirs "results/v1";
      Print (nl ++ "Processing v1: Found 1 MSA files");
      Print (nl ++ "Analyzing bad.afa...");
      Print "Error analyzing v1/bad.afa: No records found in handle";
      Print (nl ++ "Warning: v2 folder not found");
      Print (nl ++ "Warning: v3 folder not found")])
  /\ never_written "results/combined_analysis.tsv"
       (snd (run_main only_bad_file_world)).
Proof.
  split; [reflexivity|].
  exact (proj1 (proj1 (C9_no_combined_file_without_results
                         only_bad_file_world (inr tt) []
                         (snd (run_main only_bad_file_world)) eq_refl)
                      eq_refl)).
Defined.

(** * Further properties of the scorer *)

Lemma max_count_bounds (col : list ascii) :
  col <> [] -> 1 <= max_count col <= length col.
Proof.
  intros Hne. destruct (max_count_attained col Hne) as (s & Hs & <- & _).
  split.
  - apply (count_occ_In ascii_dec) in Hs. unfold count. lia.
  - unfold count. apply count_occ_bound.
Qed.

Lemma normalized_column_nonempty (alignment : Alignment) (j : nat) :
  0 < length alignment -> normalized_column alignment j <> [].
Proof.
  unfold normalized_column.
  destruct alignment; [cbn; lia|discriminate].
Qed.

Lemma length_normalized_column (alignment : Alignment) (j : nat) :
  length (normalized_column alignment j) = length alignment.
Proof. unfold normalized_column. apply length_map. Qed.

Lemma frequency_bounds (n k : nat) :
  1 <= k <= n ->
  (1 # Pos.of_nat n <= frequency n k)%Q /\ (frequency n k <= 1)%Q.
Proof.
  intros Hk. rewrite !frequency_Qeq. unfold Qle. cbn [Qnum Qden].
  assert (Hp : Z.pos (Pos.of_nat n) = Z.of_nat n).
  { rewrite <- positive_nat_Z, Nat2Pos.id by lia. reflexivity. }
  rewrite Hp. split; nia.
Qed.

(** X1.  Every score of a profile is k/n for a count k between 1 and the
    number n of sequences; so it lies between 1/n and 1 and is never 0. *)
Theorem score_is_count_over_sequences (alignment : Alignment) (s : Q)
    (Hin : In s (calculate_conservation_scores alignment)) :
  let n := length alignment in
  exists k,
    1 <= k <= n
    /\ s = Qred (Z.of_nat k # Pos.of_nat n)
    /\ (1 # Pos.of_nat n <= s)%Q /\ (s <= 1)%Q /\ (0 < s)%Q.
Proof.
  intros n. apply In_nth_error in Hin as (j & Hj).
  assert (Hlt : j < alignment_width alignment).
  { rewrite <- length_profile. apply nth_error_Some. congruence. }
  pose proof (width_positive_nonempty _ _ Hlt) as Hn.
  rewrite (score_at alignment j Hlt) in Hj. injection Hj as <-.
  pose proof (max_count_bounds _ (normalized_column_nonempty alignment j Hn))
    as Hb.
  rewrite length_normalized_column in Hb.
  exists (max_count (normalized_column alignment j)).
  split; [exact Hb|]. split; [reflexivity|].
  destruct (frequency_bounds (length alignment) _ Hb) as [Hlo Hhi].
  split; [exact Hlo|]. split; [exact Hhi|].
  eapply Qlt_le_trans; [|exact Hlo]. reflexivity.
Qed.

Lemma score_is_count_over_sequences_witness :
  In (2 # 3)%Q (calculate_conservation_scores ["AC"; "AD"; "GD"]%string)
  /\ exists k, 1 <= k <= 3 /\ (2 # 3)%Q = Qred (Z.of_nat k # 3).
Proof.
  assert (H : In (2 # 3)%Q
                (calculate_conservation_scores ["AC"; "AD"; "GD"]%string))
    by (left; reflexivity).
  split; [exact H|].
  destruct (score_is_count_over_sequences _ _ H) as (k & Hk & E & _).
  exists k. split; [exact Hk|exact E].
Defined.

(** X2.  The profile has one score per column of the frame, and the frame
    is as wide as the longest sequence: for any alignment, ragged or empty,
    the profile length is the largest sequence length. *)
Theorem profile_length_is_longest_sequence (alignment : Alignment) :
  length (calculate_conservation_scores alignment)
  = list_max (map String.length alignment)
  /\ (calculate_conservation_scores alignment = []
      <-> forall s, In s alignment -> s = ""%string).
Proof.
  assert (Hlen : length (calculate_conservation_scores alignment)
                 = list_max (map String.length alignment)).
  { rewrite length_profile. unfold alignment_width, Frame.width.
    rewrite map_map. f_equal. apply map_ext.
    apply length_list_ascii_of_string. }
  split; [exact Hlen|]. split.
  - intros E s Hs. rewrite E in Hlen. cbn [length] in Hlen.
    assert (Hle : list_max (map String.length alignment) <= 0) by lia.
    apply list_max_le in Hle. rewrite Forall_forall in Hle.
    specialize (Hle (String.length s) (in_map _ _ _ Hs)).
    destruct s; [reflexivity|cbn in Hle; lia].
  - intros Hall. apply length_zero_iff_nil. rewrite Hlen.
    apply Nat.le_0_r. apply list_max_le. apply Forall_forall.
    intros k Hk. apply in_map_iff in Hk as (s & <- & Hs).
    now rewrite (Hall s Hs).
Qed.

Lemma profile_length_is_longest_sequence_witness :
  length (calculate_conservation_scores ["MK"; "MKVA"; ""]%string) = 4
  /\ calculate_conservation_scores [""; ""]%string = [].
Proof.
  split.
  - exact (proj1 (profile_length_is_longest_sequence
                    ["MK"; "MKVA"; ""]%string)).
  - apply (proj2 (proj2 (profile_length_is_longest_sequence
                           [""; ""]%string))).
    intros s [<-|[<-|[]]]; reflexivity.
Defined.

(** ** Normalization and order of the sequences *)

Lemma normalize_stable (x : Frame.cell) :
  normalize (Some (normalize x)) = normalize x.
Proof.
  destruct x as [c|]; [|reflexivity].
  unfold normalize. destruct (is_valid c) eqn:E.
  - now rewrite E.
  - reflexivity.
Qed.

Lemma DataFrame_row_length (rows : list (list ascii))
    (row : list Frame.cell) :
  In row (Frame.DataFrame rows) -> length row = Frame.width rows.
Proof.
  unfold Frame.DataFrame. intros Hin.
  apply in_map_iff in Hin as (r & <- & Hr).
  rewrite length_app, length_map, repeat_length.
  pose proof (width_ge rows r Hr). lia.
Qed.

Lemma normalized_frame_row_length (alignment : Alignment)
    (row : list ascii) :
  In row (normalized_frame alignment) ->
  length row = alignment_width alignment.
Proof.
  unfold normalized_frame, Frame.applymap. intros Hin.
  apply in_map_iff in Hin as (r & <- & Hr). rewrite length_map.
  now apply DataFrame_row_length.
Qed.

Lemma normalized_frame_row_stable (alignment : Alignment)
    (row : list ascii) :
  In row (normalized_frame alignment) ->
  map (fun c => normalize (Some c)) row = row.
Proof.
  unfold normalized_frame, Frame.applymap. intros Hin.
  apply in_map_iff in Hin as (r & <- & _).
  rewrite map_map. apply map_ext. intros x. apply normalize_stable.
Qed.

Lemma DataFrame_uniform (rows : list (list ascii)) (w : nat) :
  (forall row, In row rows -> length row = w) ->
  Frame.DataFrame rows = map (map Some) rows.
Proof.
  intros H. unfold Frame.DataFrame. apply map_ext_in. intros row Hr.
  assert (Hw : Frame.width rows - length row = 0).
  { pose proof (width_ge rows row Hr) as Hge.
    assert (Hle : Frame.width rows <= w).
    { unfold Frame.width. apply list_max_le. apply Forall_forall.
      intros k Hk. apply in_map_iff in Hk as (r & <- & Hr').
      rewrite (H r Hr'). lia. }
    rewrite (H row Hr) in *. lia. }
  rewrite Hw. cbn. apply app_nil_r.
Qed.

Lemma normalized_frame_fixed (alignment : Alignment) :
  normalized_frame (normalized_rows alignment) = normalized_frame alignment.
Proof.
  unfold normalized_rows.
  unfold normalized_frame at 1. rewrite map_map.
  rewrite (map_ext _ (fun row => row)
             (fun row => list_ascii_of_string_of_list_ascii row)).
  rewrite map_id.
  rewrite (DataFrame_uniform _ (alignment_width alignment)
             (normalized_frame_row_length alignment)).
  unfold Frame.applymap. rewrite map_map.
  rewrite <- (map_id (normalized_frame alignment)) at 2.
  apply map_ext_in. intros row Hr. rewrite map_map.
  now apply (normalized_frame_row_stable alignment).
Qed.

(** X3.  Scoring only sees the normalized frame: writing the gap marker
    for every non-canonical symbol and filling short sequences with gap
    markers up to the width changes neither the frame nor the profile. *)
Theorem scores_of_normalized_rows (alignment : Alignment) :
  calculate_conservation_scores (normalized_rows alignment)
  = calculate_conservation_scores alignment
  /\ (forall s, In s (normalized_rows alignment) ->
        String.length s = alignment_width alignment
        /\ forall c, In c (list_ascii_of_string s) ->
                     c = gap \/ In c valid_amino_acids).
Proof.
  split.
  - unfold calculate_conservation_scores.
    now rewrite normalized_frame_fixed.
  - intros s Hs. unfold normalized_rows in Hs.
    apply in_map_iff in Hs as (row & <- & Hrow).
    rewrite <- length_list_ascii_of_string,
      list_ascii_of_string_of_list_ascii.
    split; [now apply normalized_frame_row_length|].
    intros c Hc. unfold normalized_frame, Frame.applymap in Hrow.
    apply in_map_iff in Hrow as (r & <- & _).
    apply in_map_iff in Hc as (x & <- & _).
    destruct x as [c|]; [|now left]. unfold normalize.
    destruct (is_valid c) eqn:E; [right; now apply is_valid_In|now left].
Qed.

Lemma scores_of_normalized_rows_witness :
  normalized_rows ["AC-"; "AXx"; "GD"]%string
  = ["AC-"; "A--"; "GD-"]%string
  /\ calculate_conservation_scores ["AC-"; "A--"; "GD-"]%string
     = calculate_conservation_scores ["AC-"; "AXx"; "GD"]%string.
Proof.
  split; [reflexivity|].
  exact (proj1 (scores_of_normalized_rows ["AC-"; "AXx"; "GD"]%string)).
Defined.

Lemma max_count_Permutation (col col' : list ascii) :
  Permutation col col' -> max_count col = max_count col'.
Proof.
  intros HP. unfold max_count.
  rewrite (map_ext (count col) (count col')).
  - apply Permutation_list_max. now apply Permutation_map.
  - intros s. unfold count.
    now apply (proj1 (Permutation_count_occ ascii_dec col col')).
Qed.

(** X4.  The profile does not depend on the order of the sequences. *)
Theorem scores_order_independent (alignment alignment' : Alignment)
    (Hperm : Permutation alignment alignment') :
  calculate_conservation_scores alignment
  = calculate_conservation_scores alignment'.
Proof.
  assert (Hw : alignment_width alignment = alignment_width alignment').
  { unfold alignment_width, Frame.width.
    apply Permutation_list_max. now do 2 apply Permutation_map. }
  apply nth_error_ext. intros j.
  destruct (Nat.lt_ge_cases j (alignment_width alignment)) as [Hj|Hj].
  - rewrite (score_at alignment j Hj).
    rewrite Hw in Hj. rewrite (score_at alignment' j Hj).
    rewrite (Permutation_length Hperm). do 2 f_equal.
    apply max_count_Permutation. unfold normalized_column.
    now apply Permutation_map.
  - rewrite (proj2 (nth_error_None _ _));
      [|now rewrite length_profile].
    symmetry. apply nth_error_None. rewrite length_profile. lia.
Qed.

Lemma scores_order_independent_witness :
  Permutation ["AC"; "GD"; "AD"]%string ["GD"; "AD"; "AC"]%string
  /\ calculate_conservation_scores ["AC"; "GD"; "AD"]%string
     = calculate_conservation_scores ["GD"; "AD"; "AC"]%string.
Proof.
  assert (H : Permutation ["AC"; "GD"; "AD"]%string
                          ["GD"; "AD"; "AC"]%string).
  { apply (Permutation_cons_app ["GD"; "AD"]%string []).
    rewrite app_nil_r. apply Permutation_refl. }
  split; [exact H|exact (scores_order_independent _ _ H)].
Defined.

(** ** Fully conserved columns and the threshold *)

Lemma positive_of_nat_Z (n : nat) :
  0 < n -> Z.pos (Pos.of_nat n) = Z.of_nat n.
Proof.
  intros Hn. rewrite <- positive_nat_Z, Nat2Pos.id by lia. reflexivity.
Qed.

Lemma frequency_eq_one (n k : nat) :
  0 < n -> frequency n k = 1%Q -> k = n.
Proof.
  intros Hn E. pose proof (frequency_Qeq n k) as H. rewrite E in H.
  unfold Qeq in H. cbn [Qnum Qden] in H.
  rewrite (positive_of_nat_Z n Hn) in H. lia.
Qed.

Lemma count_full (col : list ascii) (s : ascii) :
  count col s = length col -> forall x, In x col -> x = s.
Proof.
  induction col as [|a col IH]; intros H x Hx; [destruct Hx|].
  rewrite count_cons in H. cbn [length] in H.
  pose proof (count_occ_bound ascii_dec s col) as Hb. fold (count col s) in Hb.
  destruct (ascii_dec a s) as [->|Hne]; [|lia].
  destruct Hx as [<-|Hx]; [reflexivity|]. apply IH; [lia|exact Hx].
Qed.

(** X5.  A column scores exactly 1 if and only if all its symbols are the
    same after normalization. *)
Theorem score_one_iff_constant_column (alignment : Alignment) (j : nat)
    (Hj : j < alignment_width alignment) :
  nth_error (calculate_conservation_scores alignment) j = Some 1%Q
  <-> exists c, forall x, In x (normalized_column alignment j) -> x = c.
Proof.
  pose proof (width_positive_nonempty _ _ Hj) as Hn.
  pose proof (normalized_column_nonempty alignment j Hn) as Hne.
  rewrite (score_at alignment j Hj). split.
  - intros [= E]. apply frequency_eq_one in E; [|exact Hn].
    destruct (max_count_attained _ Hne) as (s & _ & Hs & _).
    exists s. apply count_full.
    now rewrite Hs, E, length_normalized_column.
  - intros (c & Hc). f_equal.
    rewrite (max_count_constant _ c Hne Hc), length_normalized_column.
    now apply frequency_all.
Qed.

Lemma score_one_iff_constant_column_witness :
  1 < alignment_width ["A-"; "CX"; "G"]%string
  /\ exists c, forall x,
       In x (normalized_column ["A-"; "CX"; "G"]%string 1) -> x = c.
Proof.
  assert (H : 1 < alignment_width ["A-"; "CX"; "G"]%string)
    by (vm_compute; lia).
  split; [exact H|].
  apply (proj1 (score_one_iff_constant_column _ 1 H)). reflexivity.
Defined.

Lemma frequency_above_threshold_iff (n c : nat) :
  0 < n -> above_threshold (frequency n c) = true <-> 95 * n < 100 * c.
Proof.
  intros Hn. rewrite above_threshold_Qlt, frequency_Qeq.
  unfold Qlt. cbn [Qnum Qden]. rewrite (positive_of_nat_Z n Hn). lia.
Qed.

(** X6.  A position is reported as highly conserved exactly when more
    than 95% of the sequences share one normalized symbol there, that is
    when 100 times the largest count exceeds 95 times the number of
    sequences.  With at most 20 sequences this leaves only the columns
    that score 1. *)
Theorem highly_conserved_iff_count (alignment : Alignment) (j : nat) (s : Q)
    (Hj : j < alignment_width alignment) :
  let n := length alignment in
  let m := max_count (normalized_column alignment j) in
  let scores := calculate_conservation_scores alignment in
  (In ((Z.of_nat j + 1)%Z, s) (highly_conserved scores)
   <-> nth_error scores j = Some s /\ 95 * n < 100 * m)
  /\ (n <= 20 ->
      In ((Z.of_nat j + 1)%Z, s) (highly_conserved scores) ->
      s = 1%Q).
Proof.
  intros n m scores.
  pose proof (width_positive_nonempty _ _ Hj) as Hn.
  pose proof (score_at alignment j Hj) as Hscore. fold n m scores in Hscore.
  assert (Hiff : In ((Z.of_nat j + 1)%Z, s) (highly_conserved scores)
                 <-> nth_error scores j = Some s /\ 95 * n < 100 * m).
  { rewrite in_highly_conserved. split.
    - intros (i & Hi & Hnth & Hab).
      assert (i = j) by lia. subst i. split; [exact Hnth|].
      rewrite Hscore in Hnth. injection Hnth as <-.
      now apply frequency_above_threshold_iff in Hab.
    - intros (Hnth & Hc). exists j. split; [reflexivity|].
      split; [exact Hnth|]. rewrite Hscore in Hnth. injection Hnth as <-.
      now apply frequency_above_threshold_iff. }
  split; [exact Hiff|].
  intros Hsmall Hin. apply Hiff in Hin as (Hnth & Hc).
  rewrite Hscore in Hnth. injection Hnth as <-.
  pose proof (max_count_bounds _ (normalized_column_nonempty alignment j Hn))
    as Hb.
  rewrite length_normalized_column in Hb. fold m n in Hb.
  assert (m = n) by lia. subst m. rewrite H. now apply frequency_all.
Qed.

Lemma highly_conserved_iff_count_witness :
  0 < alignment_width ["AC"; "AD"]%string
  /\ In (1%Z, 1%Q)
        (highly_conserved
           (calculate_conservation_scores ["AC"; "AD"]%string)).
Proof.
  assert (H : 0 < alignment_width ["AC"; "AD"]%string)
    by (vm_compute; lia).
  split; [exact H|].
  apply (proj2 (proj1 (highly_conserved_iff_count
                         ["AC"; "AD"]%string 0 1%Q H))).
  split; [reflexivity|vm_compute; lia].
Defined.

(** ** A floor under every score *)

Lemma normalize_in_alphabet (x : Frame.cell) :
  In (normalize x) (gap :: valid_amino_acids).
Proof.
  destruct x as [c|]; [|now left]. unfold normalize.
  destruct (is_valid c) eqn:E; [right; now apply is_valid_In|now left].
Qed.

Lemma sum_nat_bounded {A : Type} (f : A -> nat) (l : list A) (m : nat) :
  (forall x, In x l -> f x <= m) -> sum_nat (map f l) <= length l * m.
Proof.
  induction l as [|a l IH]; intros H; [cbn; lia|].
  cbn [map length]. unfold sum_nat in *. cbn [fold_right].
  pose proof (H a (or_introl eq_refl)).
  pose proof (IH (fun x Hx => H x (or_intror Hx))). lia.
Qed.

Lemma count_le_max_count (col : list ascii) (s : ascii) :
  count col s <= max_count col.
Proof.
  destruct col as [|a col]; [reflexivity|].
  destruct (max_count_attained (a :: col)) as (m & _ & <- & Hmax);
    [discriminate|apply Hmax].
Qed.

(** With at most [k] distinct symbols, some symbol covers a [k]-th of the
    column. *)
Lemma pigeonhole_max_count (col alphabet : list ascii) :
  incl col alphabet -> length col <= length alphabet * max_count col.
Proof.
  intros Hincl.
  rewrite <- (sum_counts_length col) at 1.
  unfold value_counts. rewrite map_map. cbn [snd].
  change (sum_nat (map (count col) (nodup ascii_dec col))
          <= length alphabet * max_count col).
  etransitivity.
  - apply sum_nat_bounded. intros x _. apply count_le_max_count.
  - apply Nat.mul_le_mono_r. apply NoDup_incl_length.
    + apply NoDup_nodup.
    + intros x Hx. apply Hincl.
      exact (proj1 (nodup_In ascii_dec col x) Hx).
Qed.

(** X7.  After normalization a column holds at most 21 different symbols
    (the 20 amino acids and the gap marker), so its most frequent symbol
    covers at least 1/21 of the sequences: no score is below 1/21. *)
Theorem score_at_least_one_in_21 (alignment : Alignment) (s : Q)
    (Hin : In s (calculate_conservation_scores alignment)) :
  (1 # 21 <= s)%Q.
Proof.
  apply In_nth_error in Hin as (j & Hj).
  assert (Hlt : j < alignment_width alignment).
  { rewrite <- length_profile. apply nth_error_Some. congruence. }
  pose proof (width_positive_nonempty _ _ Hlt) as Hn.
  rewrite (score_at alignment j Hlt) in Hj. injection Hj as <-.
  assert (Hp : length (normalized_column alignment j)
               <= length (gap :: valid_amino_acids)
                  * max_count (normalized_column alignment j)).
  { apply pigeonhole_max_count. intros x Hx.
    unfold normalized_column in Hx. apply in_map_iff in Hx as (r & <- & _).
    apply normalize_in_alphabet. }
  rewrite length_normalized_column in Hp.
  change (length (gap :: valid_amino_acids)) with 21 in Hp.
  rewrite frequency_Qeq. unfold Qle. cbn [Qnum Qden].
  rewrite (positive_of_nat_Z _ Hn). lia.
Qed.

Lemma score_at_least_one_in_21_witness :
  In (1 # 3)%Q (calculate_conservation_scores ["A"; "C"; "D"]%string)
  /\ (1 # 21 <= 1 # 3)%Q.
Proof.
  assert (H : In (1 # 3)%Q
                (calculate_conservation_scores ["A"; "C"; "D"]%string))
    by (left; reflexivity).
  split; [exact H|exact (score_at_least_one_in_21 _ _ H)].
Defined.

(** ** The two views of a profile agree *)

(** X8.  For positions that are all at least 1, a row of the key-residue
    table is also in the highly-conserved list exactly when its score is
    above 0.95. *)
Theorem key_residue_row_highly_conserved (scores : list Q)
    (positions : list Z) (rows : list (Z * Q)) (row : Z * Q)
    (Hpositive : Forall (fun pos => (1 <= pos)%Z) positions)
    (Hrows : key_residue_rows scores positions [] = inr rows)
    (Hrow : In row rows) :
  In row (highly_conserved scores) <-> (95 # 100 < snd row)%Q.
Proof.
  rewrite key_residue_rows_positive in Hrows by exact Hpositive.
  cbn [app] in Hrows. injection Hrows as <-.
  apply in_map_iff in Hrow as (pos & <- & Hpos).
  apply filter_In in Hpos as (Hpos & Hle).
  rewrite Forall_forall in Hpositive. specialize (Hpositive pos Hpos).
  unfold in_bounds in Hle. apply Z.leb_le in Hle.
  unfold row_at. cbn [snd]. rewrite in_highly_conserved.
  assert (Hnth : nth_error scores (Z.to_nat (pos - 1))
                 = Some (nth (Z.to_nat (pos - 1)) scores 0%Q))
    by (apply nth_error_nth'; lia).
  split.
  - intros (i & Hi & Hi' & Hab). now apply above_threshold_Qlt.
  - intros Hlt. exists (Z.to_nat (pos - 1)). split; [lia|].
    split; [exact Hnth|now apply above_threshold_Qlt].
Qed.

Lemma key_residue_row_highly_conserved_witness :
  Forall (fun pos => (1 <= pos)%Z) [2; 1]%Z
  /\ key_residue_rows [1; 1 # 2]%Q [2; 1]%Z []
     = inr [(2%Z, (1 # 2)%Q); (1%Z, 1%Q)]
  /\ In (1%Z, 1%Q) (highly_conserved [1; 1 # 2]%Q).
Proof.
  assert (H : Forall (fun pos => (1 <= pos)%Z) [2; 1]%Z)
    by (repeat constructor; lia).
  split; [exact H|]. split; [reflexivity|].
  apply (proj2 (key_residue_row_highly_conserved
                  [1; 1 # 2]%Q [2; 1]%Z
                  [(2%Z, (1 # 2)%Q); (1%Z, 1%Q)] (1%Z, 1%Q)
                  H eq_refl (or_intror (or_introl eq_refl)))).
  reflexivity.
Defined.

(** * Further properties of the path helpers *)

Lemma list_ascii_of_string_app (a b : string) :
  list_ascii_of_string (a ++ b)
  = list_ascii_of_string a ++ list_ascii_of_string b.
Proof. induction a as [|c a IH]; [reflexivity|]. cbn. now rewrite IH. Qed.

Lemma basename_fold_no_sep (l acc : list ascii) :
  ~ In Path.sep l -> fold_left basename_step l acc = acc ++ l.
Proof.
  revert acc. induction l as [|c l IH]; intros acc Hl.
  - cbn. now rewrite app_nil_r.
  - cbn [fold_left]. unfold basename_step at 2.
    destruct (Ascii.eqb_spec c Path.sep) as [->|Hne].
    + exfalso. apply Hl. now left.
    + rewrite IH by (intros H; apply Hl; now right).
      now rewrite <- app_assoc.
Qed.

Lemma basename_fold_after_sep (l1 l2 acc : list ascii) :
  fold_left basename_step (l1 ++ Path.sep :: l2) acc = fold_left basename_step l2 [].
Proof.
  rewrite fold_left_app. cbn [fold_left]. unfold basename_step at 2.
  now rewrite Ascii.eqb_refl.
Qed.

Lemma basename_fold_sep_free (l acc : list ascii) :
  ~ In Path.sep acc -> ~ In Path.sep (fold_left basename_step l acc).
Proof.
  revert acc. induction l as [|c l IH]; intros acc Hacc; [exact Hacc|].
  cbn [fold_left]. apply IH. unfold basename_step.
  destruct (Ascii.eqb_spec c Path.sep) as [->|Hne]; [intros []|].
  intros H. apply in_app_or in H as [H|[H|[]]]; [now apply Hacc|].
  now apply Hne.
Qed.

Lemma basename_unfold (p : string) :
  Path.basename p
  = string_of_list_ascii (fold_left basename_step (list_ascii_of_string p) []).
Proof. reflexivity. Qed.

Lemma basename_slash_free (p : string) : slash_free (Path.basename p).
Proof.
  unfold slash_free. rewrite basename_unfold,
    list_ascii_of_string_of_list_ascii.
  apply basename_fold_sep_free. intros [].
Qed.

Lemma basename_keeps (p : string) :
  slash_free p -> Path.basename p = p.
Proof.
  intros Hp. rewrite basename_unfold, basename_fold_no_sep by exact Hp.
  apply string_of_list_ascii_of_string.
Qed.

Lemma basename_cut (before : list ascii) (p name : string) :
  list_ascii_of_string p = before ++ Path.sep :: list_ascii_of_string name ->
  Path.basename p = Path.basename name.
Proof.
  intros Hp. rewrite !basename_unfold, Hp.
  now rewrite basename_fold_after_sep.
Qed.

(** X9.  [basename] returns a name without separator, keeps a name that
    has none, and drops everything up to the last separator. *)
Theorem basename_properties (dir name : string) :
  slash_free (Path.basename name)
  /\ Path.basename (Path.basename name) = Path.basename name
  /\ (slash_free name ->
      Path.basename name = name
      /\ Path.basename (dir ++ "/" ++ name) = name).
Proof.
  split; [apply basename_slash_free|].
  split; [apply basename_keeps, basename_slash_free|].
  intros Hname. split; [now apply basename_keeps|].
  rewrite (basename_cut (list_ascii_of_string dir) _ name).
  - now apply basename_keeps.
  - now rewrite list_ascii_of_string_app.
Qed.

Lemma basename_properties_witness :
  slash_free "falcipain.afa"
  /\ Path.basename ("data/v1" ++ "/" ++ "falcipain.afa")
     = "falcipain.afa"%string.
Proof.
  assert (H : slash_free "falcipain.afa").
  { unfold slash_free. cbn. intros H.
    repeat (destruct H as [H|H]; [discriminate H|]). exact H. }
  split; [exact H|].
  exact (proj2 (proj2 (proj2 (basename_properties "data/v1"
                                "falcipain.afa")) H)).
Defined.

(** X10.  Joining a directory and a name without separator and taking the
    basename gives the name back. *)
Theorem basename_join (dir name : string) (Hname : slash_free name) :
  Path.basename (Path.join dir name) = name.
Proof.
  pose proof (basename_keeps name Hname) as Hkeep.
  unfold Path.join.
  destruct (String.prefix "/" name) eqn:Hp.
  { exfalso. destruct name as [|c name]; cbn [String.prefix] in Hp;
      [discriminate Hp|].
    destruct (ascii_dec "/"%char c) as [<-|]; [|discriminate Hp].
    apply Hname. now left. }
  destruct (String.eqb_spec dir "") as [->|Hne]; cbn [orb].
  { exact Hkeep. }
  destruct (Path.endswith_sep dir) eqn:He.
  - unfold Path.endswith_sep in He.
    destruct (rev (list_ascii_of_string dir)) as [|c r] eqn:Hr;
      [discriminate|].
    apply Ascii.eqb_eq in He. subst c.
    rewrite (basename_cut (rev r) _ name); [exact Hkeep|].
    rewrite list_ascii_of_string_app,
      <- (rev_involutive (list_ascii_of_string dir)), Hr.
    cbn [rev]. now rewrite <- app_assoc.
  - rewrite (basename_cut (list_ascii_of_string dir) _ name);
      [exact Hkeep|].
    now rewrite list_ascii_of_string_app.
Qed.

Lemma basename_join_witness :
  slash_free "a_conserved.txt"
  /\ Path.basename (Path.join "results/v1" "a_conserved.txt")
     = "a_conserved.txt"%string.
Proof.
  assert (H : slash_free "a_conserved.txt").
  { unfold slash_free. cbn. intros H.
    repeat (destruct H as [H|H]; [discriminate H|]). exact H. }
  split; [exact H|exact (basename_join "results/v1" _ H)].
Defined.

(** ** Extensions and output names *)

Lemma rfind_from_absent (c : ascii) (l : list ascii) (i : nat)
    (last : option nat) :
  ~ In c l -> Path.rfind_from c l i last = last.
Proof.
  revert i last. induction l as [|x l IH]; intros i last Hl; [reflexivity|].
  cbn [Path.rfind_from].
  destruct (Ascii.eqb_spec x c) as [->|Hne].
  - exfalso. apply Hl. now left.
  - apply IH. intros H. apply Hl. now right.
Qed.

Lemma rfind_from_app (c : ascii) (l1 l2 : list ascii) (i : nat)
    (last : option nat) :
  Path.rfind_from c (l1 ++ l2) i last
  = Path.rfind_from c l2 (i + length l1) (Path.rfind_from c l1 i last).
Proof.
  revert i last. induction l1 as [|x l1 IH]; intros i last.
  - cbn. now rewrite Nat.add_0_r.
  - cbn [app Path.rfind_from length]. rewrite IH. f_equal. lia.
Qed.

Lemma rfind_last_occurrence (c : ascii) (l1 l2 : list ascii) :
  ~ In c l2 -> Path.rfind c (l1 ++ c :: l2) = Some (length l1).
Proof.
  intros Hl2. unfold Path.rfind. rewrite rfind_from_app.
  cbn [Path.rfind_from]. rewrite Ascii.eqb_refl.
  now rewrite rfind_from_absent.
Qed.

Lemma rfind_absent (c : ascii) (l : list ascii) :
  ~ In c l -> Path.rfind c l = None.
Proof. intros H. unfold Path.rfind. now apply rfind_from_absent. Qed.

Lemma existsb_non_dot (name : string) :
  has_stem name ->
  existsb (fun c => negb (Ascii.eqb c Path.extsep))
          (list_ascii_of_string name) = true.
Proof.
  intros (c & Hc & Hne). apply existsb_exists. exists c.
  split; [exact Hc|]. apply negb_true_iff.
  now apply Ascii.eqb_neq.
Qed.

Lemma splitext_root_strips (name ext : string) :
  slash_free name -> has_stem name ->
  slash_free ext -> ~ In Path.extsep (list_ascii_of_string ext) ->
  Path.splitext_root (name ++ "." ++ ext) = name.
Proof.
  intros Hname Hstem Hext Hdot. unfold Path.splitext_root.
  rewrite !list_ascii_of_string_app.
  change (list_ascii_of_string ".") with [Path.extsep]. cbn [app].
  rewrite (rfind_last_occurrence Path.extsep _ _ Hdot).
  rewrite rfind_absent.
  - cbn [Nat.leb andb]. rewrite Nat.sub_0_r. cbn [skipn].
    rewrite firstn_app, Nat.sub_diag, firstn_all. cbn [firstn].
    rewrite app_nil_r, (existsb_non_dot name Hstem).
    apply string_of_list_ascii_of_string.
  - intros H. apply in_app_or in H as [H|[H|H]].
    + now apply Hname.
    + discriminate H.
    + now apply Hext.
Qed.

Lemma join_plain (dir name : string) :
  dir <> ""%string -> Path.endswith_sep dir = false ->
  String.prefix "/" name = false ->
  Path.join dir name = (dir ++ "/" ++ name)%string.
Proof.
  intros Hdir Hend Hp. unfold Path.join. rewrite Hp, Hend.
  destruct (String.eqb_spec dir ""); [contradiction|reflexivity].
Qed.

Lemma prefix_sep_suffixed (name suffix : string) :
  slash_free name -> String.prefix "/" suffix = false ->
  String.prefix "/" (name ++ suffix) = false.
Proof.
  intros Hname Hs. destruct name as [|c name]; [exact Hs|].
  cbn [append String.prefix].
  destruct (ascii_dec "/"%char c) as [<-|]; [|reflexivity].
  exfalso. apply Hname. now left.
Qed.

(** X11.  [splitext] cuts the last extension of a file name: a name with
    a stem followed by a dot and a dot-free extension gives the stem; a
    name without a dot is returned whole. *)
Theorem splitext_root_properties (name ext : string) :
  (slash_free name -> has_stem name ->
   slash_free ext -> ~ In Path.extsep (list_ascii_of_string ext) ->
   Path.splitext_root (name ++ "." ++ ext) = name)
  /\ (~ In Path.extsep (list_ascii_of_string name) ->
      Path.splitext_root name = name).
Proof.
  split; [apply splitext_root_strips|].
  intros Hdot. unfold Path.splitext_root.
  now rewrite (rfind_absent Path.extsep _ Hdot).
Qed.

Lemma splitext_root_properties_witness :
  slash_free "falcipain.2" /\ has_stem "falcipain.2"
  /\ Path.splitext_root ("falcipain.2" ++ "." ++ "afa")
     = "falcipain.2"%string.
Proof.
  assert (Hfree : forall l : list ascii,
            forallb (fun c => negb (Ascii.eqb c Path.sep)) l = true ->
            ~ In Path.sep l).
  { intros l Hl Hin. rewrite forallb_forall in Hl.
    specialize (Hl _ Hin). now rewrite Ascii.eqb_refl in Hl. }
  assert (H1 : slash_free "falcipain.2") by (apply Hfree; reflexivity).
  assert (H2 : has_stem "falcipain.2").
  { exists "f"%char. split; [now left|discriminate]. }
  assert (H3 : slash_free "afa") by (apply Hfree; reflexivity).
  assert (H4 : ~ In Path.extsep (list_ascii_of_string "afa")).
  { cbn. intros H. repeat (destruct H as [H|H]; [discriminate H|]).
    exact H. }
  split; [exact H1|]. split; [exact H2|].
  exact (proj1 (splitext_root_properties "falcipain.2" "afa")
               H1 H2 H3 H4).
Defined.

(** X12.  The outputs of a file are named after it: for the file
    [folder/name.afa] and an output directory without trailing separator,
    the plot is [output_dir/name_conservation.png] and the report is
    [output_dir/name_conserved.txt]. *)
Theorem output_paths_named_after_input (folder name output_dir : string)
    (Hname : slash_free name) (Hstem : has_stem name)
    (Hdir : output_dir <> ""%string)
    (Hend : Path.endswith_sep output_dir = false) :
  let msa_file := (folder ++ "/" ++ name ++ ".afa")%string in
  root_name msa_file = name
  /\ plot_path output_dir msa_file
     = (output_dir ++ "/" ++ name ++ "_conservation.png")%string
  /\ report_path output_dir msa_file
     = (output_dir ++ "/" ++ name ++ "_conserved.txt")%string.
Proof.
  intros msa_file.
  assert (Hroot : root_name msa_file = name).
  { unfold root_name, msa_file.
    rewrite (basename_cut (list_ascii_of_string folder) _
               (name ++ ".afa")%string)
      by now rewrite list_ascii_of_string_app.
    assert (Hfree : slash_free (name ++ ".afa")).
    { unfold slash_free. rewrite list_ascii_of_string_app.
      intros H. apply in_app_or in H as [H|H]; [now apply Hname|].
      cbn in H. repeat (destruct H as [H|H]; [discriminate H|]).
      exact H. }
    rewrite (basename_keeps _ Hfree).
    apply splitext_root_strips; try assumption.
    - unfold slash_free. cbn. intros H.
      repeat (destruct H as [H|H]; [discriminate H|]). exact H.
    - cbn. intros H.
      repeat (destruct H as [H|H]; [discriminate H|]). exact H. }
  split; [exact Hroot|].
  unfold plot_path, report_path. rewrite Hroot.
  split; apply join_plain; try assumption;
    now apply prefix_sep_suffixed.
Qed.

Lemma output_paths_named_after_input_witness :
  slash_free "fp2" /\ has_stem "fp2"
  /\ report_path "results/v1" ("v1" ++ "/" ++ "fp2" ++ ".afa")
     = "results/v1/fp2_conserved.txt"%string.
Proof.
  assert (H1 : slash_free "fp2").
  { unfold slash_free. cbn. intros H.
    repeat (destruct H as [H|H]; [discriminate H|]). exact H. }
  assert (H2 : has_stem "fp2").
  { exists "f"%char. split; [now left|discriminate]. }
  split; [exact H1|]. split; [exact H2|].
  refine (proj2 (proj2 (output_paths_named_after_input
                          "v1" "fp2" "results/v1" H1 H2 _ eq_refl))).
  discriminate.
Defined.

(** * Further properties of the folder driver *)

(** ** The order of the files *)

Lemma string_compare_trans (s1 s2 s3 : string) :
  String.compare s1 s2 <> Gt -> String.compare s2 s3 <> Gt ->
  String.compare s1 s3 <> Gt.
Proof.
  revert s2 s3. induction s1 as [|c1 s1 IH]; intros [|c2 s2] [|c3 s3];
    cbn [String.compare]; try congruence.
  unfold Ascii.compare.
  destruct (N.compare_spec (N_of_ascii c1) (N_of_ascii c2)) as [E12|L12|G12];
    destruct (N.compare_spec (N_of_ascii c2) (N_of_ascii c3))
      as [E23|L23|G23];
    destruct (N.compare_spec (N_of_ascii c1) (N_of_ascii c3))
      as [E13|L13|G13];
    intros H1 H2; try congruence; try (exfalso; lia).
  now apply (IH s2).
Qed.

Lemma string_le_trans (a b c : string) :
  string_le a b -> string_le b c -> string_le a c.
Proof.
  unfold string_le, String.leb. intros H1 H2.
  pose proof (string_compare_trans a b c) as H.
  destruct (String.compare a b); destruct (String.compare b c);
    destruct (String.compare a c); try reflexivity; try discriminate;
    exfalso; apply H; congruence.
Qed.

Lemma insert_sorted_Permutation (x : string) (l : list string) :
  Permutation (x :: l) (insert_sorted x l).
Proof.
  induction l as [|y l IH]; [apply Permutation_refl|].
  cbn [insert_sorted]. destruct (String.leb x y).
  - apply Permutation_refl.
  - etransitivity; [apply perm_swap|]. now apply perm_skip.
Qed.

Lemma sorted_Permutation (l : list string) : Permutation l (sorted l).
Proof.
  induction l as [|x l IH]; [constructor|].
  cbn [sorted fold_right]. etransitivity; [|apply insert_sorted_Permutation].
  now apply perm_skip.
Qed.

Lemma insert_sorted_StronglySorted (x : string) (l : list string) :
  StronglySorted string_le l -> StronglySorted string_le (insert_sorted x l).
Proof.
  induction 1 as [|y l Hs IH Hy]; cbn [insert_sorted].
  - repeat constructor.
  - destruct (String.leb x y) eqn:E.
    + constructor; [now constructor|].
      constructor; [exact E|].
      eapply Forall_impl; [|exact Hy]. intros z Hz.
      now apply (string_le_trans x y z).
    + constructor; [exact IH|].
      assert (Hyx : string_le y x).
      { destruct (String.leb_total x y) as [H|H]; [congruence|exact H]. }
      rewrite Forall_forall. intros z Hz.
      apply (Permutation_in z (Permutation_sym
                                 (insert_sorted_Permutation x l))) in Hz.
      destruct Hz as [<-|Hz]; [exact Hyx|].
      rewrite Forall_forall in Hy. now apply Hy.
Qed.

Lemma sorted_StronglySorted (l : list string) :
  StronglySorted string_le (sorted l).
Proof.
  induction l as [|x l IH]; [constructor|].
  cbn [sorted fold_right]. now apply insert_sorted_StronglySorted.
Qed.

Lemma StronglySorted_unique (l1 l2 : list string) :
  StronglySorted string_le l1 -> StronglySorted string_le l2 ->
  Permutation l1 l2 -> l1 = l2.
Proof.
  intros H1. revert l2. induction H1 as [|a l1 Hs1 IH Ha]; intros l2 H2 HP.
  - apply Permutation_nil in HP. now subst.
  - destruct H2 as [|b l2 Hs2 Hb].
    + apply Permutation_sym, Permutation_nil in HP. discriminate.
    + assert (a = b).
      { rewrite Forall_forall in Ha, Hb.
        assert (Hba : In b (a :: l1))
          by (apply (Permutation_in b (Permutation_sym HP)); now left).
        assert (Hab : In a (b :: l2))
          by (apply (Permutation_in a HP); now left).
        destruct Hba as [->|Hba]; [reflexivity|].
        destruct Hab as [->|Hab]; [reflexivity|].
        apply String.leb_antisym; [now apply Ha|now apply Hb]. }
      subst b. f_equal. apply IH; [exact Hs2|].
      now apply Permutation_cons_inv in HP.
Qed.

(** X13.  [sorted] returns the same file names in lexicographic order,
    and the result does not depend on the order in which they were
    listed. *)
Theorem sorted_is_ordered_permutation (l l' : list string) :
  Permutation l (sorted l)
  /\ StronglySorted string_le (sorted l)
  /\ (Permutation l l' -> sorted l = sorted l').
Proof.
  split; [apply sorted_Permutation|].
  split; [apply sorted_StronglySorted|].
  intros HP. apply StronglySorted_unique; try apply sorted_StronglySorted.
  etransitivity; [apply Permutation_sym, sorted_Permutation|].
  etransitivity; [exact HP|apply sorted_Permutation].
Qed.

Lemma sorted_is_ordered_permutation_witness :
  Permutation ["v1/b.afa"; "v1/a.afa"]%string ["v1/a.afa"; "v1/b.afa"]%string
  /\ sorted ["v1/b.afa"; "v1/a.afa"]%string
     = sorted ["v1/a.afa"; "v1/b.afa"]%string.
Proof.
  assert (H : Permutation ["v1/b.afa"; "v1/a.afa"]%string
                          ["v1/a.afa"; "v1/b.afa"]%string)
    by apply perm_swap.
  split; [exact H|].
  exact (proj2 (proj2 (sorted_is_ordered_permutation _ _)) H).
Defined.

(** X14.  A folder is processed in the same way whatever the order in
    which [glob] lists its files: the same results, the same console
    output and the same files, in the same order. *)
Theorem process_folder_listing_order (w : World)
    (listing : string -> list string) (folder_path : string)
    (L : Type) (l : L) (t : list Event)
    (Hperm : forall pattern, Permutation (glob w pattern) (listing pattern)) :
  process_folder (with_glob w listing) folder_path l t
  = process_folder w folder_path l t.
Proof.
  specialize (Hperm (Path.join folder_path "*.afa")).
  assert (Hsorted : sorted (listing (Path.join folder_path "*.afa"))
                    = sorted (glob w (Path.join folder_path "*.afa"))).
  { apply StronglySorted_unique; try apply sorted_StronglySorted.
    etransitivity; [apply Permutation_sym, sorted_Permutation|].
    etransitivity; [apply Permutation_sym, Hperm|apply sorted_Permutation]. }
  unfold process_folder. cbn [glob with_glob makedirs_error].
  rewrite <- (Permutation_length Hperm), Hsorted.
  reflexivity.
Qed.

Lemma process_folder_listing_order_witness :
  (forall pattern,
     Permutation (glob one_bad_file_world pattern)
                 (rev (glob one_bad_file_world pattern)))
  /\ process_folder
       (with_glob one_bad_file_world
          (fun pattern => rev (glob one_bad_file_world pattern)))
       "v1" tt []
     = process_folder one_bad_file_world "v1" tt [].
Proof.
  assert (H : forall pattern,
            Permutation (glob one_bad_file_world pattern)
                        (rev (glob one_bad_file_world pattern)))
    by (intros pattern; apply Permutation_rev).
  split; [exact H|].
  exact (process_folder_listing_order one_bad_file_world _ "v1" unit tt []
           H).
Defined.

(** ** What is analysed and what can fail *)

Lemma default_key_residue_rows (scores : list Q) :
  key_residue_rows scores residues_to_highlight []
  = inr (map (row_at scores)
             (filter (in_bounds scores) residues_to_highlight)).
Proof.
  rewrite key_residue_rows_positive; [reflexivity|].
  unfold residues_to_highlight. repeat constructor; lia.
Qed.

Lemma first_non_ascii_None (l : list ascii) (i : nat) :
  first_non_ascii l i = None
  <-> forall c, In c l -> nat_of_ascii c < 128.
Proof.
  revert i. induction l as [|a l IH]; intros i; cbn [first_non_ascii].
  - split; [intros _ c []|reflexivity].
  - unfold is_ascii_byte.
    destruct (Nat.ltb_spec (nat_of_ascii a) 128) as [Hlt|Hge].
    + rewrite IH. split.
      * intros H c [<-|Hc]; [assumption|now apply H].
      * intros H c Hc. apply H. now right.
    + split; [discriminate|].
      intros H. specialize (H a (or_introl eq_refl)). lia.
Qed.

Lemma first_non_ascii_Some (l : list ascii) (i : nat) (byte : ascii)
    (position : nat) :
  first_non_ascii l i = Some (byte, position) ->
  128 <= nat_of_ascii byte /\ In byte l
  /\ i <= position /\ nth_error l (position - i) = Some byte.
Proof.
  revert i. induction l as [|a l IH]; intros i; cbn [first_non_ascii];
    [discriminate|].
  unfold is_ascii_byte.
  destruct (Nat.ltb_spec (nat_of_ascii a) 128) as [Hlt|Hge].
  - intros H. destruct (IH _ H) as (Hb & Hin & Hi & Hnth).
    split; [exact Hb|]. split; [now right|]. split; [lia|].
    replace (position - i) with (S (position - S i)) by lia. exact Hnth.
  - intros [= <- <-]. split; [assumption|]. split; [now left|].
    split; [lia|]. now rewrite Nat.sub_diag.
Qed.

Lemma decode_records_inr (alignment sequences : Alignment) :
  decode_records alignment = inr sequences ->
  sequences = alignment /\ pure_ascii alignment.
Proof.
  revert sequences. induction alignment as [|s rest IH]; intros sequences;
    cbn [decode_records].
  - intros [= <-]. split; [reflexivity|]. intros s c [].
  - unfold str_seq.
    destruct (first_non_ascii (list_ascii_of_string s) 0) as [[b i]|] eqn:E;
      [discriminate|].
    destruct (decode_records rest) as [e|others]; [discriminate|].
    intros [= <-]. destruct (IH others eq_refl) as [-> Hrest].
    split; [reflexivity|].
    intros s' c [<-|Hs'] Hc.
    + now apply (proj1 (first_non_ascii_None _ 0) E).
    + now apply (Hrest s' c).
Qed.

Lemma decode_records_pure (alignment : Alignment) :
  pure_ascii alignment -> decode_records alignment = inr alignment.
Proof.
  induction alignment as [|s rest IH]; intros Hpure; [reflexivity|].
  cbn [decode_records]. unfold str_seq.
  rewrite (proj2 (first_non_ascii_None (list_ascii_of_string s) 0))
    by (intros c Hc; apply (Hpure s c); [now left|exact Hc]).
  rewrite IH; [reflexivity|].
  intros s' c Hs' Hc. apply (Hpure s' c); [now right|exact Hc].
Qed.

Lemma decode_records_inl (alignment : Alignment) (e : Exception) :
  decode_records alignment = inl e ->
  exists s byte position,
    In s alignment /\ 128 <= nat_of_ascii byte
    /\ nth_error (list_ascii_of_string s) position = Some byte
    /\ e = UnicodeDecodeError byte position.
Proof.
  induction alignment as [|s rest IH]; cbn [decode_records];
    [discriminate|].
  unfold str_seq.
  destruct (first_non_ascii (list_ascii_of_string s) 0) as [[b i]|] eqn:E.
  - intros [= <-].
    destruct (first_non_ascii_Some _ _ _ _ E) as (Hb & _ & _ & Hnth).
    rewrite Nat.sub_0_r in Hnth.
    exists s, b, i. split; [now left|]. auto.
  - destruct (decode_records rest) as [e'|others]; [|discriminate].
    intros [= <-]. destruct (IH eq_refl) as (s' & b & i & Hs' & H).
    exists s', b, i. split; [now right|exact H].
Qed.

Lemma analysis_outcome_eq (w : World)
    (version_name output_dir msa_file : string) :
  analysis_outcome w version_name output_dir msa_file
  = match AlignIO_read w msa_file with
    | inl e => inl e
    | inr alignment =>
        match decode_records alignment with
        | inl e => inl e
        | inr _ =>
            match makedirs_error w output_dir with
            | Some e => inl e
            | None =>
                match savefig_error w (plot_path output_dir msa_file) with
                | Some e => inl e
                | None => inr (entry_of_alignment version_name msa_file
                                 alignment)
                end
            end
        end
    end.
Proof.
  unfold analysis_outcome, analyze_entry, analyze_msa_file,
    analyze_key_residues, bind.
  destruct (AlignIO_read w msa_file) as [e|alignment];
    cbn [lift raise ret]; [reflexivity|].
  destruct (decode_records alignment) as [e|sequences] eqn:Edec;
    cbn [lift raise ret]; [reflexivity|].
  apply decode_records_inr in Edec as [-> _].
  rewrite default_key_residue_rows. cbn [lift ret].
  destruct (makedirs_error w output_dir) as [e|];
    cbn [guarded raise emit]; [reflexivity|].
  destruct (savefig_error w (plot_path output_dir msa_file)) as [e|];
    cbn [guarded raise emit ret fst]; reflexivity.
Qed.

(** X15.  The analysis of a file fails only at four places: reading the
    alignment, decoding the sequences read (line 19, a byte of 128 or
    more), creating the output directory, or saving the plot; the
    exception is the one raised there.  It succeeds exactly when all four
    succeed, and the entry is then a function of the version, the file
    name and the alignment read: its highly-conserved list and
    key-residue table are those of that alignment's profile.  Decoding
    succeeds exactly when every byte of every sequence is below 128, and
    otherwise raises [UnicodeDecodeError] for such a byte and its index
    in its sequence. *)
Theorem analysis_outcome_sources (w : World)
    (version_name output_dir msa_file : string) :
  (forall e,
     analysis_outcome w version_name output_dir msa_file = inl e ->
     AlignIO_read w msa_file = inl e
     \/ (exists alignment,
           AlignIO_read w msa_file = inr alignment
           /\ decode_records alignment = inl e)
     \/ makedirs_error w output_dir = Some e
     \/ savefig_error w (plot_path output_dir msa_file) = Some e)
  /\ (forall entry,
        analysis_outcome w version_name output_dir msa_file = inr entry
        <-> exists alignment,
              AlignIO_read w msa_file = inr alignment
              /\ decode_records alignment = inr alignment
              /\ makedirs_error w output_dir = None
              /\ savefig_error w (plot_path output_dir msa_file) = None
              /\ entry = entry_of_alignment version_name msa_file alignment)
  /\ (forall alignment,
        (decode_records alignment = inr alignment
         <-> pure_ascii alignment)
        /\ (forall e,
              decode_records alignment = inl e ->
              exists s byte position,
                In s alignment /\ 128 <= nat_of_ascii byte
                /\ nth_error (list_ascii_of_string s) position = Some byte
                /\ e = UnicodeDecodeError byte position)
        /\ Highly_Conserved
             (entry_of_alignment version_name msa_file alignment)
           = highly_conserved (calculate_conservation_scores alignment)
        /\ analyze_key_residues alignment residues_to_highlight
           = inr (Key_Residues
                    (entry_of_alignment version_name msa_file alignment))).
Proof.
  rewrite analysis_outcome_eq. split; [|split].
  - intros e.
    destruct (AlignIO_read w msa_file) as [e0|alignment];
      [intros [= ->]; now left|].
    destruct (decode_records alignment) as [e0|sequences] eqn:Edec.
    { intros [= ->]. right. left. exists alignment. auto. }
    destruct (makedirs_error w output_dir) as [e1|];
      [intros [= ->]; right; right; now left|].
    destruct (savefig_error w (plot_path output_dir msa_file)) as [e2|];
      [intros [= ->]; right; right; now right|discriminate].
  - intros entry. split.
    + destruct (AlignIO_read w msa_file) as [e0|alignment]; [discriminate|].
      destruct (decode_records alignment) as [e0|sequences] eqn:Edec;
        [discriminate|].
      destruct (decode_records_inr _ _ Edec) as [-> _].
      destruct (makedirs_error w output_dir) as [e1|]; [discriminate|].
      destruct (savefig_error w (plot_path output_dir msa_file)) as [e2|];
        [discriminate|].
      intros [= <-]. exists alignment. auto.
    + intros (alignment & -> & -> & -> & -> & ->). reflexivity.
  - intros alignment. split; [|split; [|split]].
    + split; [intros H; now apply decode_records_inr in H|].
      apply decode_records_pure.
    + apply decode_records_inl.
    + reflexivity.
    + unfold analyze_key_residues. now rewrite default_key_residue_rows.
Qed.

Lemma analysis_outcome_sources_witness :
  analysis_outcome undecodable_world "v1" "results/v1" "v1/a.afa"
  = inl (OtherError
           "'ascii' codec can't decode byte 0xe9 in position 2: ordinal not in range(128)")
  /\ exists alignment,
       AlignIO_read undecodable_world "v1/a.afa" = inr alignment
       /\ decode_records alignment
          = inl (UnicodeDecodeError (ascii_of_nat 233) 2).
Proof.
  split; [reflexivity|].
  destruct (proj1 (analysis_outcome_sources undecodable_world
                     "v1" "results/v1" "v1/a.afa")
              (UnicodeDecodeError (ascii_of_nat 233) 2) eq_refl)
    as [H|[H|[H|H]]]; [discriminate H|exact H|discriminate H|discriminate H].
Defined.

(** ** The outputs of one file *)

(** X16.  One round of the loop over the files, case by case.  A file that
    cannot be read, or whose sequences cannot be decoded, leaves the log
    line of its error and nothing else: no directory, plot, report or
    entry.  A file that is read and decoded and whose directory and plot
    can be written gets, in this order, its output directory, its plot,
    its entry and its report, where the plot marks the rows of the
    entry's key-residue table and the report lists the entry's
    highly-conserved pairs.  A file whose report cannot be opened keeps
    its plot and its entry. *)
Theorem process_file_outputs (w : World)
    (version_name output_dir msa_file : string)
    (l : list VersionResult) (t : list Event) :
  (forall e,
     AlignIO_read w msa_file = inl e
     \/ (exists alignment,
           AlignIO_read w msa_file = inr alignment
           /\ decode_records alignment = inl e) ->
     process_file w version_name output_dir msa_file l t
     = (inr tt, l,
        t ++ [Print (analyzing_message msa_file);
              Print (error_message msa_file e)]))
  /\ (forall alignment,
        AlignIO_read w msa_file = inr alignment ->
        decode_records alignment = inr alignment ->
        makedirs_error w output_dir = None ->
        savefig_error w (plot_path output_dir msa_file) = None ->
        let entry := entry_of_alignment version_name msa_file alignment in
        let fig := figure_of_alignment msa_file alignment in
        highlighted fig = Key_Residues entry
        /\ match open_error w (report_path output_dir msa_file) with
           | None =>
               process_file w version_name output_dir msa_file l t
               = (inr tt, l ++ [entry],
                  t ++ [Print (analyzing_message msa_file);
                        Makedirs output_dir;
                        Savefig (plot_path output_dir msa_file) fig;
                        WriteFile (report_path output_dir msa_file)
                          (report_content msa_file
                             (Highly_Conserved entry));
                        Print ("Analysis complete. Results saved to "
                               ++ report_path output_dir msa_file)])
           | Some e =>
               process_file w version_name output_dir msa_file l t
               = (inr tt, l ++ [entry],
                  t ++ [Print (analyzing_message msa_file);
                        Makedirs output_dir;
                        Savefig (plot_path output_dir msa_file) fig;
                        Print (error_message msa_file e)])
           end).
Proof.
  split.
  - intros e Hfail. rewrite (process_file_framed w).
    unfold process_file, try_body, analyze_entry, analyze_msa_file,
      bind, try_except.
    cbn [emit].
    destruct Hfail as [Hread|(alignment & Hread & Hdec)]; rewrite Hread;
      cbn [lift raise ret].
    + cbn. now rewrite app_nil_r.
    + rewrite Hdec. cbn. now rewrite app_nil_r.
  - intros alignment Hread Hdec Hmk Hsave entry fig.
    split; [reflexivity|].
    rewrite (process_file_framed w).
    unfold process_file, try_body, write_report, analyze_entry,
      analyze_msa_file, analyze_key_residues, bind, try_except.
    cbn [emit]. rewrite Hread. cbn [lift ret].
    rewrite Hdec. cbn [lift ret].
    rewrite default_key_residue_rows. cbn [lift ret].
    rewrite Hmk, Hsave. cbn [guarded emit ret modify_local fst snd app].
    destruct (open_error w (report_path output_dir msa_file)) as [e|];
      cbn [guarded raise emit fst snd app]; reflexivity.
Qed.

Lemma process_file_outputs_witness :
  (exists alignment,
     AlignIO_read undecodable_world "v1/a.afa" = inr alignment
     /\ decode_records alignment
        = inl (UnicodeDecodeError (ascii_of_nat 233) 2))
  /\ process_file undecodable_world "v1" "results/v1" "v1/a.afa" [] []
     = (inr tt, [],
        [Print (analyzing_message "v1/a.afa");
         Print (error_message "v1/a.afa"
                  (UnicodeDecodeError (ascii_of_nat 233) 2))])
  /\ AlignIO_read one_bad_file_world "v1/good.afa" = inr sample_alignment
  /\ decode_records sample_alignment = inr sample_alignment
  /\ process_file one_bad_file_world "v1" "results/v1" "v1/good.afa" [] []
     = (inr tt,
        [entry_of_alignment "v1" "v1/good.afa" sample_alignment],
        [Print (analyzing_message "v1/good.afa");
         Makedirs "results/v1";
         Savefig "results/v1/good_conservation.png"
           (figure_of_alignment "v1/good.afa" sample_alignment);
         WriteFile "results/v1/good_conserved.txt"
           (report_content "v1/good.afa"
              (highly_conserved
                 (calculate_conservation_scores sample_alignment)));
         Print "Analysis complete. Results saved to results/v1/good_conserved.txt"]).
Proof.
  assert (Hbad : exists alignment,
            AlignIO_read undecodable_world "v1/a.afa" = inr alignment
            /\ decode_records alignment
               = inl (UnicodeDecodeError (ascii_of_nat 233) 2))
    by (eexists; split; reflexivity).
  split; [exact Hbad|]. split.
  - exact (proj1 (process_file_outputs undecodable_world "v1"
                    "results/v1" "v1/a.afa" [] [])
                 (UnicodeDecodeError (ascii_of_nat 233) 2)
                 (or_intror Hbad)).
  - split; [reflexivity|]. split; [reflexivity|].
    exact (proj2 (proj2 (process_file_outputs one_bad_file_world "v1"
                           "results/v1" "v1/good.afa" [] [])
                        sample_alignment eq_refl eq_refl eq_refl eq_refl)).
Defined.

(** * Further properties of the run *)

Lemma run_main_cases (w : World) :
  run_main w
  = match makedirs_error w "results" with
    | Some e => (inl e, [], [])
    | None =>
        match for_each versions (process_version w) []
                       [Makedirs "results"] with
        | (inl e, all, t) => (inl e, all, t)
        | (inr _, [], t) => (inr tt, [], t)
        | (inr _, (_ :: _) as all, t) =>
            match to_csv_error w combined_path with
            | Some e => (inl e, all, t)
            | None =>
                (inr tt, all,
                 t ++ [ToCsv combined_path all;
                       Print combined_saved_message])
            end
        end
    end.
Proof.
  unfold run_main, main, bind.
  destruct (makedirs_error w "results") as [e|];
    cbn [guarded raise emit modify_local app]; [reflexivity|].
  destruct (for_each versions (process_version w) [] [Makedirs "results"])
    as [[[e|[]] all] t]; [reflexivity|].
  cbn [get_local]. destruct all as [|entry all]; [reflexivity|].
  destruct (to_csv_error w combined_path) as [e|];
    cbn [guarded raise emit]; [reflexivity|].
  unfold emit. now rewrite <- app_assoc.
Qed.

Lemma for_each_raises {L A : Type} (xs : list A) (body : A -> M L unit)
    (l l' : L) (t t' : list Event) (e : Exception) :
  for_each xs body l t = (inl e, l', t') ->
  exists x l0 t0, In x xs /\ body x l0 t0 = (inl e, l', t').
Proof.
  revert l t. induction xs as [|x xs IH]; intros l t; cbn [for_each].
  - discriminate.
  - unfold bind. destruct (body x l t) as [[[e0|[]] l1] t1] eqn:E.
    + intros [= -> -> ->]. exists x, l, t. split; [now left|exact E].
    + intros H. destruct (IH _ _ H) as (y & l0 & t0 & Hy & Hb).
      exists y, l0, t0. split; [now right|exact Hb].
Qed.

Lemma process_folder_raises (w : World) {L : Type} (folder_path : string)
    (l l' : L) (t t' : list Event) (e : Exception) :
  process_folder w folder_path l t = (inl e, l', t') ->
  makedirs_error w (Path.join "results" (Path.basename folder_path))
  = Some e.
Proof.
  unfold process_folder, call, bind.
  destruct (makedirs_error w
              (Path.join "results" (Path.basename folder_path))) as [e0|];
    cbn [guarded raise emit modify_local]; [now intros [= -> _ _]|].
  match goal with
  | |- context [for_each ?files _ [] ?t0] =>
      destruct (process_files_run w (Path.basename folder_path)
                  (Path.join "results" (Path.basename folder_path))
                  files [] t0) as (t2 & E & _); rewrite E
  end.
  cbn [get_local]. discriminate.
Qed.

Lemma process_version_raises (w : World) (version : string)
    (l l' : list VersionResult) (t t' : list Event) (e : Exception) :
  process_version w version l t = (inl e, l', t') ->
  path_exists w version = true
  /\ makedirs_error w (Path.join "results" (Path.basename version))
     = Some e.
Proof.
  unfold process_version.
  destruct (path_exists w version); [|discriminate].
  unfold bind. cbn [emit].
  destruct (process_folder w version l _) as [[[e0|results] l1] t1] eqn:E;
    [|discriminate].
  intros [= -> _ _]. split; [reflexivity|].
  now apply process_folder_raises in E.
Qed.

(** X17.  No exception of a single file ends the run.  When the run
    raises, the exception is that of creating [results], of creating the
    output directory of a version whose folder exists, or of writing the
    combined table. *)
Theorem run_raises_only_for_directories_or_table (w : World)
    (e : Exception) (all_version_results : list VersionResult)
    (t : list Event)
    (Hrun : run_main w = (inl e, all_version_results, t)) :
  makedirs_error w "results" = Some e
  \/ (exists version,
        In version versions /\ path_exists w version = true
        /\ makedirs_error w (Path.join "results" (Path.basename version))
           = Some e)
  \/ (all_version_results <> []
      /\ to_csv_error w combined_path = Some e).
Proof.
  rewrite run_main_cases in Hrun.
  destruct (makedirs_error w "results") as [e0|];
    [left; now injection Hrun as ->|].
  destruct (for_each versions (process_version w) [] [Makedirs "results"])
    as [[[e0|[]] all] t0] eqn:Eloop.
  - injection Hrun as -> -> ->. right. left.
    destruct (for_each_raises _ _ _ _ _ _ _ Eloop)
      as (v & l0 & t1 & Hv & Hbody).
    apply process_version_raises in Hbody as [Hex Hmk].
    exists v. auto.
  - destruct all as [|entry all]; [discriminate|].
    destruct (to_csv_error w combined_path) as [e1|]; [|discriminate].
    injection Hrun as -> <- _. right. right. split; [discriminate|reflexivity].
Qed.

Lemma run_raises_only_for_directories_or_table_witness :
  run_main unwritable_results_world
  = (inl (OtherError "Permission denied"), [],
     [Makedirs "results"; Print (nl ++ "Processing v1...")])
  /\ exists version,
       In version versions
       /\ makedirs_error unwritable_results_world
            (Path.join "results" (Path.basename version))
          = Some (OtherError "Permission denied").
Proof.
  split; [reflexivity|].
  destruct (run_raises_only_for_directories_or_table
              unwritable_results_world (OtherError "Permission denied")
              [] [Makedirs "results"; Print (nl ++ "Processing v1...")]
              eq_refl)
    as [H|[(v & Hv & _ & Hmk)|[H _]]].
  - discriminate H.
  - exists v. split; [exact Hv|exact Hmk].
  - exfalso. now apply H.
Defined.

(** ** Where the rows of the combined table come from *)

Lemma for_each_locals {L A : Type} (P : L -> Prop) (xs : list A)
    (body : A -> M L unit) :
  (forall x l t, In x xs -> P l -> P (snd (fst (body x l t)))) ->
  forall l t, P l -> P (snd (fst (for_each xs body l t))).
Proof.
  induction xs as [|x xs IH]; intros Hbody l t Hl; [exact Hl|].
  cbn [for_each]. unfold bind.
  pose proof (Hbody x l t (or_introl eq_refl) Hl) as Hx.
  destruct (body x l t) as [[[e|[]] l1] t1]; cbn [fst snd] in *.
  - exact Hx.
  - apply IH; [|exact Hx]. intros y l0 t0 Hy. apply Hbody. now right.
Qed.

Lemma version_basename (version : string) :
  In version versions -> Path.basename version = version.
Proof. intros [<-|[<-|[<-|[]]]]; reflexivity. Qed.

Lemma analysis_outcome_fields (w : World)
    (version_name output_dir msa_file : string) (entry : VersionResult) :
  analysis_outcome w version_name output_dir msa_file = inr entry ->
  Version entry = version_name
  /\ MSA_file entry = Path.basename msa_file.
Proof.
  rewrite analysis_outcome_eq.
  destruct (AlignIO_read w msa_file) as [e|alignment]; [discriminate|].
  destruct (decode_records alignment) as [e|sequences]; [discriminate|].
  destruct (makedirs_error w output_dir) as [e|]; [discriminate|].
  destruct (savefig_error w (plot_path output_dir msa_file)) as [e|];
    [discriminate|].
  intros [= <-]. split; reflexivity.
Qed.

Lemma process_version_provenance (w : World) (version : string)
    (l : list VersionResult) (t : list Event) :
  In version versions ->
  Forall (entry_provenance w) l ->
  Forall (entry_provenance w)
         (snd (fst (process_version w version l t))).
Proof.
  intros Hv Hl. unfold process_version.
  destruct (path_exists w version) eqn:Hex; [|exact Hl].
  unfold bind. cbn [emit].
  pose proof (process_folder_locals w version l
                (t ++ [Print (nl ++ "Processing " ++ version ++ "...")]))
    as Hloc.
  destruct (process_folder w version l _) as [[[e|results] l1] t1] eqn:E;
    cbn [fst snd] in Hloc; subst l1; [exact Hl|].
  apply process_folder_returns in E. cbn [modify_local fst snd].
  apply Forall_app. split; [exact Hl|].
  rewrite (version_basename version Hv) in E.
  apply Forall_forall. intros entry Hentry. rewrite E in Hentry.
  apply in_flat_map in Hentry as (f & Hf & Hin).
  apply (proj1 (in_sorted _ _)) in Hf.
  destruct (analysis_outcome w version (Path.join "results" version) f)
    as [e|en] eqn:Eout; cbn in Hin; [contradiction|].
  destruct Hin as [<-|[]].
  destruct (analysis_outcome_fields _ _ _ _ _ Eout) as [Hver Hname].
  exists version, f. auto 7.
Qed.

(** X18.  Every entry accumulated by a run comes from a file that [glob]
    listed in the folder of a configured version that exists and whose
    analysis went through; its version and file name are those of that
    file.  A version whose folder is missing has no entry. *)
Theorem accumulated_entries_provenance (w : World)
    (outcome : Exception + unit) (all_version_results : list VersionResult)
    (t : list Event)
    (Hrun : run_main w = (outcome, all_version_results, t)) :
  Forall (entry_provenance w) all_version_results
  /\ forall entry,
       In entry all_version_results ->
       In (Version entry) versions
       /\ path_exists w (Version entry) = true.
Proof.
  assert (Hall : Forall (entry_provenance w) all_version_results).
  { rewrite run_main_cases in Hrun.
    destruct (makedirs_error w "results") as [e|];
      [injection Hrun as _ <- _; constructor|].
    pose proof (for_each_locals (Forall (entry_provenance w)) versions
                  (process_version w)
                  (fun v l0 t0 Hv => process_version_provenance w v l0 t0 Hv)
                  [] [Makedirs "results"] (Forall_nil _)) as Hloop.
    destruct (for_each versions (process_version w) [] [Makedirs "results"])
      as [[[e|[]] all] t0]; cbn [fst snd] in Hloop.
    - now injection Hrun as _ <- _.
    - destruct all as [|entry all]; [now injection Hrun as _ <- _|].
      destruct (to_csv_error w combined_path);
        now injection Hrun as _ <- _. }
  split; [exact Hall|].
  intros entry Hentry. rewrite Forall_forall in Hall.
  destruct (Hall entry Hentry) as (v & f & Hv & Hex & _ & _ & Hver & _).
  rewrite Hver. auto.
Qed.

Lemma accumulated_entries_provenance_witness :
  length (snd (fst (run_main one_bad_file_world))) = 1
  /\ Forall (entry_provenance one_bad_file_world)
            (snd (fst (run_main one_bad_file_world))).
Proof.
  split; [reflexivity|].
  exact (proj1 (accumulated_entries_provenance one_bad_file_world
                  (fst (fst (run_main one_bad_file_world)))
                  (snd (fst (run_main one_bad_file_world)))
                  (snd (run_main one_bad_file_world)) eq_refl)).
Defined.

(** ** The combined table *)

Lemma versions_loop_keeps (w : World) (P : Event -> Prop) :
  (forall version, In version versions ->
     keeps P (process_version w version)) ->
  P (Makedirs "results") ->
  Forall P (snd (for_each versions (process_version w) []
                          [Makedirs "results"])).
Proof.
  intros Hbody Hmk.
  apply (keeps_for_each P versions (process_version w) Hbody).
  now repeat constructor.
Qed.

(** X19.  A run that ends normally with accumulated entries has written
    the combined table exactly once, as its last file, at
    [results/combined_analysis.tsv], holding all the accumulated entries
    in order.  A run that raises has not written it. *)
Theorem combined_table_written_once (w : World)
    (outcome : Exception + unit) (all_version_results : list VersionResult)
    (t : list Event)
    (Hrun : run_main w = (outcome, all_version_results, t))
    (Hsome : all_version_results <> []) :
  match outcome with
  | inr _ =>
      exists t0,
        t = t0 ++ [ToCsv "results/combined_analysis.tsv"
                         all_version_results;
                   Print combined_saved_message]
        /\ forall path rows, ~ In (ToCsv path rows) t0
  | inl _ => forall path rows, ~ In (ToCsv path rows) t
  end.
Proof.
  rewrite run_main_cases in Hrun.
  destruct (makedirs_error w "results") as [e|].
  { injection Hrun as <- <- <-. intros path rows []. }
  pose proof (versions_loop_keeps w per_file_event
                (process_version_keeps w) I) as Hloop.
  apply per_file_events_leave_combined in Hloop as [_ Hloop].
  destruct (for_each versions (process_version w) [] [Makedirs "results"])
    as [[[e|[]] all] t0]; cbn [snd] in Hloop.
  - injection Hrun as <- <- <-. exact Hloop.
  - destruct all as [|entry all].
    + injection Hrun as _ <- _. now contradiction Hsome.
    + destruct (to_csv_error w combined_path) as [e|].
      * injection Hrun as <- <- <-. exact Hloop.
      * injection Hrun as <- <- <-. exists t0. split; [reflexivity|].
        exact Hloop.
Qed.

Lemma combined_table_written_once_witness :
  snd (fst (run_main one_bad_file_world)) <> []
  /\ exists t0,
       snd (run_main one_bad_file_world)
       = t0 ++ [ToCsv "results/combined_analysis.tsv"
                  (snd (fst (run_main one_bad_file_world)));
                Print combined_saved_message].
Proof.
  assert (H : snd (fst (run_main one_bad_file_world)) <> [])
    by (vm_compute; discriminate).
  split; [exact H|].
  destruct (combined_table_written_once one_bad_file_world (inr tt)
              (snd (fst (run_main one_bad_file_world)))
              (snd (run_main one_bad_file_world)) eq_refl H)
    as (t0 & E & _).
  exists t0. exact E.
Defined.

(** ** Where a run writes *)

Lemma In_firstn {A : Type} (n : nat) (l : list A) (x : A) :
  In x (firstn n l) -> In x l.
Proof.
  intros H. rewrite <- (firstn_skipn n l). apply in_or_app. now left.
Qed.

Lemma splitext_root_slash_free (p : string) :
  slash_free p -> slash_free (Path.splitext_root p).
Proof.
  intros Hp. unfold Path.splitext_root.
  destruct (Path.rfind Path.extsep (list_ascii_of_string p)) as [dot|];
    [|exact Hp].
  match goal with |- slash_free (if ?c then _ else _) => destruct c end;
    [|exact Hp].
  unfold slash_free. rewrite list_ascii_of_string_of_list_ascii.
  intros H. apply Hp. now apply In_firstn in H.
Qed.

Lemma slash_free_app (a b : string) :
  slash_free a -> slash_free b -> slash_free (a ++ b).
Proof.
  unfold slash_free. rewrite list_ascii_of_string_app.
  intros Ha Hb H. apply in_app_or in H as [H|H]; auto.
Qed.

Lemma version_output_in_directory (version msa_file suffix : string) :
  In version versions ->
  slash_free suffix -> String.prefix "/" suffix = false ->
  in_version_directory
    (Path.join (Path.join "results" (Path.basename version))
               (root_name msa_file ++ suffix)).
Proof.
  intros Hv Hs Hp.
  assert (Hroot : slash_free (root_name msa_file))
    by apply splitext_root_slash_free, basename_slash_free.
  exists version, (root_name msa_file ++ suffix)%string.
  split; [exact Hv|]. split; [now apply slash_free_app|].
  rewrite join_plain.
  - destruct Hv as [<-|[<-|[<-|[]]]]; reflexivity.
  - destruct Hv as [<-|[<-|[<-|[]]]]; discriminate.
  - destruct Hv as [<-|[<-|[<-|[]]]]; reflexivity.
  - now apply prefix_sep_suffixed.
Qed.

Lemma process_version_confined (w : World) (version : string) :
  In version versions -> keeps confined (process_version w version).
Proof.
  intros Hv. unfold process_version.
  destruct (path_exists w version); [|apply keeps_emit; exact I].
  unfold process_folder.
  assert (Hdir : confined
            (Makedirs (Path.join "results" (Path.basename version)))).
  { right. exists version. split; [exact Hv|].
    destruct Hv as [<-|[<-|[<-|[]]]]; reflexivity. }
  assert (Hfree : forall s : string,
            forallb (fun c => negb (Ascii.eqb c Path.sep))
                    (list_ascii_of_string s) = true -> slash_free s).
  { intros s Hs Hin. rewrite forallb_forall in Hs.
    specialize (Hs _ Hin). now rewrite Ascii.eqb_refl in Hs. }
  keeping; try exact I; try exact Hdir.
  apply keeps_call. keeping; try exact I; try exact Hdir.
  apply keeps_for_each. intros f _.
  unfold process_file, try_body, write_report, analyze_entry,
    analyze_msa_file.
  keeping; try exact I; try exact Hdir.
  - apply version_output_in_directory;
      [exact Hv|apply Hfree; reflexivity|reflexivity].
  - apply version_output_in_directory;
      [exact Hv|apply Hfree; reflexivity|reflexivity].
Qed.

(** X20.  A run creates nothing outside [results]: the directories it
    makes are [results] and [results/<version>], every plot and report
    lies directly inside the directory of its version, and the only other
    file is the combined table.  The input folders are never written. *)
Theorem run_writes_under_results (w : World)
    (outcome : Exception + unit) (all_version_results : list VersionResult)
    (t : list Event)
    (Hrun : run_main w = (outcome, all_version_results, t)) :
  Forall confined t
  /\ forall ev path,
       In ev t -> written_path ev = Some path ->
       exists rest, path = ("results/" ++ rest)%string.
Proof.
  assert (Hconf : Forall confined t).
  { rewrite run_main_cases in Hrun.
    destruct (makedirs_error w "results") as [e|];
      [injection Hrun as _ _ <-; constructor|].
    pose proof (versions_loop_keeps w confined
                  (process_version_confined w) (or_introl eq_refl))
      as Hloop.
    destruct (for_each versions (process_version w) [] [Makedirs "results"])
      as [[[e|[]] all] t0]; cbn [snd] in Hloop.
    - now injection Hrun as _ _ <-.
    - destruct all as [|entry all]; [now injection Hrun as _ _ <-|].
      destruct (to_csv_error w combined_path);
        injection Hrun as _ _ <-; [exact Hloop|].
      apply Forall_app. split; [exact Hloop|].
      repeat constructor. }
  split; [exact Hconf|].
  intros ev path Hev Hpath. rewrite Forall_forall in Hconf.
  specialize (Hconf ev Hev).
  assert (Hdir : in_version_directory path ->
                 exists rest, path = ("results/" ++ rest)%string).
  { intros (v & name & _ & _ & ->). eexists. reflexivity. }
  destruct ev; cbn in Hpath, Hconf; try discriminate;
    injection Hpath as <-; [now apply Hdir|now apply Hdir|].
  rewrite Hconf. eexists. reflexivity.
Qed.

Lemma run_writes_under_results_witness :
  Forall confined (snd (run_main one_bad_file_world))
  /\ In (Savefig "results/v1/good_conservation.png"
           (figure_of_alignment "v1/good.afa" sample_alignment))
        (snd (run_main one_bad_file_world)).
Proof.
  split.
  - exact (proj1 (run_writes_under_results one_bad_file_world
                    (fst (fst (run_main one_bad_file_world)))
                    (snd (fst (run_main one_bad_file_world)))
                    (snd (run_main one_bad_file_world)) eq_refl)).
  - vm_compute. repeat (first [left; reflexivity | right]).
Defined.

(** * Further properties of the analyzer *)

Lemma key_residue_rows_app (scores : list Q) (good rest : list Z)
    (results : list (Z * Q)) :
  Forall (fun pos => (1 <= pos)%Z) good ->
  key_residue_rows scores (good ++ rest) results
  = key_residue_rows scores rest
      (results ++ map (row_at scores) (filter (in_bounds scores) good)).
Proof.
  intros Hgood. revert results.
  induction Hgood as [|pos good Hpos Hgood IH]; intros results.
  - cbn. now rewrite app_nil_r.
  - cbn [app key_residue_rows filter].
    change (pos <=? Z.of_nat (length scores))%Z
      with (in_bounds scores pos).
    destruct (in_bounds scores pos) eqn:Hle.
    + unfold in_bounds in Hle. apply Z.leb_le in Hle.
      rewrite series_getitem_in_range by lia.
      rewrite IH. cbn [map]. unfold row_at at 2.
      now rewrite <- app_assoc.
    + apply IH.
Qed.

(** X21.  The key-residue table is all or nothing: the first position
    below 1 decides the outcome.  Whatever rows were collected before it
    are dropped, the positions after it are not looked at, and the
    exception carries the label [pos - 1] of that position. *)
Theorem key_residue_rows_first_bad_position (scores : list Q)
    (good rest : list Z) (pos : Z)
    (Hgood : Forall (fun p => (1 <= p)%Z) good)
    (Hpos : (pos < 1)%Z) :
  key_residue_rows scores (good ++ pos :: rest) []
  = inl (KeyError (pos - 1))
  /\ key_residue_rows scores good []
     = inr (map (row_at scores) (filter (in_bounds scores) good)).
Proof.
  split.
  - rewrite key_residue_rows_app by exact Hgood.
    cbn [key_residue_rows].
    destruct (Z.leb_spec pos (Z.of_nat (length scores))); [|lia].
    now rewrite series_getitem_negative by lia.
  - now rewrite key_residue_rows_positive.
Qed.

Lemma key_residue_rows_first_bad_position_witness :
  Forall (fun p => (1 <= p)%Z) [1; 2]%Z /\ (-3 < 1)%Z
  /\ key_residue_rows [1; 1 # 2]%Q ([1; 2] ++ -3 :: [0; 1])%Z []
     = inl (KeyError (-3 - 1)).
Proof.
  assert (H1 : Forall (fun p => (1 <= p)%Z) [1; 2]%Z)
    by (repeat constructor; lia).
  assert (H2 : (-3 < 1)%Z) by lia.
  split; [exact H1|]. split; [exact H2|].
  exact (proj1 (key_residue_rows_first_bad_position
                  [1; 1 # 2]%Q [1; 2]%Z [0; 1]%Z (-3)%Z H1 H2)).
Defined.
